(** * N-gram frequency and probability pipeline

    A shallow embedding of the two pipeline variants of the repository:

    - [keyboard_suggestion/amazigh/pipeline.py]: text cleaning, whitespace
      tokenisation, sliding-window n-grams, counting and the Laplace-smoothed
      negative log-probability estimator (called Policy A below);
    - [keyboard_suggestion/ngrams_tp.py]: sentence files, n-gram frequency
      distributions and the unsmoothed relative-frequency estimator
      (Policy B), run over several configured languages.

    Conventions of the embedding.
    - A Python [str] is a list of Unicode code points ([N]).
    - A Python [dict] / [Counter] / [FreqDist] is a [gmap]; no statement below
      depends on the iteration order of a dictionary.
    - Occurrence counts are natural numbers: every table is produced by
      counting grams.
    - Python floats are idealised: the quotient of two integers is the exact
      rational ([Q]) and [math.log] is the real logarithm ([ln] on [R]).
      Rounding of IEEE doubles is not modelled.
    - Exceptions are values of [pyerror], threaded through the [result]
      monad. *)

From Stdlib Require Import ZArith NArith QArith Qreals Reals Lra Lia.
From stdpp Require Import gmap strings list fin_maps pretty.

(** ** Python strings and characters *)

Abbreviation char := N (only parsing).
Abbreviation pystr := (list N) (only parsing).

(** An ASCII literal as a sequence of code points. *)
Definition lit (s : string) : pystr :=
  List.map Ascii.N_of_ascii (String.list_ascii_of_string s).

Definition space : char := 0x20%N.
Definition newline : char := 0x0A%N.

(** [Py_UNICODE_ISSPACE]: the predicate behind both the regular-expression
    class [\s] (on [str] patterns) and [str.strip()] / [str.split()]. *)
Definition is_space (c : char) : bool :=
  ((0x09 <=? c) && (c <=? 0x0D) || (0x1C <=? c) && (c <=? 0x20)
   || (c =? 0x85) || (c =? 0xA0) || (c =? 0x1680)
   || (0x2000 <=? c) && (c <=? 0x200A)
   || (c =? 0x2028) || (c =? 0x2029) || (c =? 0x202F) || (c =? 0x205F)
   || (c =? 0x3000))%N.

(** The characters listed in the class of line 13 of [pipeline.py],
    [0-9A-Za-z\u0600-\u06FF\u2D30-\u2D7F’'ʿ_\-\s]. *)
Definition in_kept_class (c : char) : bool :=
  ((0x30 <=? c) && (c <=? 0x39)            (* 0-9 *)
   || (0x41 <=? c) && (c <=? 0x5A)         (* A-Z *)
   || (0x61 <=? c) && (c <=? 0x7A)         (* a-z *)
   || (0x0600 <=? c) && (c <=? 0x06FF)     (* Arabic block *)
   || (0x2D30 <=? c) && (c <=? 0x2D7F)     (* Tifinagh block *)
   || (c =? 0x2019)                        (* right single quotation mark *)
   || (c =? 0x27)                          (* apostrophe *)
   || (c =? 0x02BF)                        (* modifier letter left half ring *)
   || (c =? 0x5F)                          (* underscore *)
   || (c =? 0x2D)                          (* hyphen *)
   || is_space c)%N.                       (* \s *)

(** [s.lstrip()], [s.rstrip()], [s.strip()] without argument. *)
Fixpoint lstrip (s : pystr) : pystr :=
  match s with
  | [] => []
  | c :: r => if is_space c then lstrip r else s
  end.

Definition rstrip (s : pystr) : pystr := rev (lstrip (rev s)).

Definition strip (s : pystr) : pystr := rstrip (lstrip s).

(** [s.split()] without argument: maximal runs of non-whitespace
    characters.  [word] accumulates the current run in reverse. *)
Fixpoint split_from (word : pystr) (s : pystr) : list pystr :=
  match s with
  | [] => match word with [] => [] | _ => [rev word] end
  | c :: r =>
      if is_space c
      then match word with
           | [] => split_from [] r
           | _ => rev word :: split_from [] r
           end
      else split_from (c :: word) r
  end.

Definition split (s : pystr) : list pystr := split_from [] s.

(** [sep.join(parts)] *)
Fixpoint py_join (sep : pystr) (parts : list pystr) : pystr :=
  match parts with
  | [] => []
  | p :: rest =>
      match rest with
      | [] => p
      | _ :: _ => p ++ sep ++ py_join sep rest
      end
  end.

(** ** Regular-expression substitution

    Every call of [re.sub] in [clean_text] replaces the matches of a pattern
    that cannot match the empty string by one space.  A matcher gives, for
    the text that starts at the current position, the length of the match
    that begins there (leftmost, with Python's greedy / lazy preference), or
    [None].  The engine scans from left to right; after a match of length
    [k+1] it emits the replacement and passes over the [k] further matched
    characters.  A length of 0 is never produced by the matchers below and
    is read as no match. *)

Definition matcher := pystr → option nat.

Fixpoint re_sub_from (m : matcher) (skip : nat) (text : pystr) : pystr :=
  match text with
  | [] => []
  | c :: rest =>
      match skip with
      | S k => re_sub_from m k rest
      | O =>
          match m text with
          | Some (S k) => space :: re_sub_from m k rest
          | _ => c :: re_sub_from m 0 rest
          end
      end
  end.

Definition re_sub_space (m : matcher) (text : pystr) : pystr :=
  re_sub_from m 0 text.

(** Length of the longest prefix whose characters satisfy [p]
    (a greedy character-class repetition). *)
Fixpoint run_length (p : char → bool) (s : pystr) : nat :=
  match s with
  | [] => 0
  | c :: r => if p c then S (run_length p r) else 0
  end.

Fixpoint starts_with (p s : pystr) : bool :=
  match p, s with
  | [], _ => true
  | _ :: _, [] => false
  | a :: p', b :: s' => (a =? b)%N && starts_with p' s'
  end.

(** The lazy body [.*?] followed by a doubled closing character: the
    number of characters before the first admissible occurrence of
    [close close].  [dot] says which characters [.] matches. *)
Fixpoint find_lazy (dot : char → bool) (close : char) (s : pystr) : option nat :=
  match s with
  | [] => None
  | a :: tl =>
      if starts_with [close; close] s then Some 0
      else if dot a then S <$> find_lazy dot close tl
      else None
  end.

(** [<[^>]+>] *)
Definition m_tag : matcher := λ text,
  match text with
  | c :: rest =>
      if (c =? 0x3C)%N then
        let k := run_length (λ x, negb (x =? 0x3E)%N) rest in
        match k, drop k rest with
        | S _, d :: _ => if (d =? 0x3E)%N then Some (S k + 1) else None
        | _, _ => None
        end
      else None
  | [] => None
  end.

(** [\{\{.*?\}\}] with [re.DOTALL]: [.] matches every character. *)
Definition m_template : matcher := λ text,
  if starts_with (lit "{{") text
  then (λ j, 2 + j + 2) <$> find_lazy (λ _, true) 0x7D%N (drop 2 text)
  else None.

(** [\[\[.*?\]\]]: [.] matches every character but the newline. *)
Definition m_wikilink : matcher := λ text,
  if starts_with (lit "[[") text
  then (λ j, 2 + j + 2) <$>
       find_lazy (λ x, negb (x =? newline)%N) 0x5D%N (drop 2 text)
  else None.

(** [\[https?:\/\/[^\]]*\]] *)
Definition m_extlink : matcher := λ text,
  if starts_with (lit "[http") text then
    let r := drop 5 text in
    let after_scheme :=
      if starts_with (lit "s://") r then Some (9, drop 4 r)
      else if starts_with (lit "://") r then Some (8, drop 3 r)
      else None in
    match after_scheme with
    | Some (n, body) =>
        let k := run_length (λ x, negb (x =? 0x5D)%N) body in
        match drop k body with
        | d :: _ => if (d =? 0x5D)%N then Some (n + k + 1) else None
        | [] => None
        end
    | None => None
    end
  else None.

(** [[^0-9A-Za-z\u0600-\u06FF\u2D30-\u2D7F’'ʿ_\-\s]]: one character outside
    the class. *)
Definition m_disallowed : matcher := λ text,
  match text with
  | c :: _ => if in_kept_class c then None else Some 1
  | [] => None
  end.

(** [\s+] *)
Definition m_spaces : matcher := λ text,
  match run_length is_space text with
  | O => None
  | k => Some k
  end.

(** ** Exceptions *)

Inductive pyerror :=
  | ZeroDivisionError
  | ValueError
  | IndexError
  | FileNotFoundError.

Inductive result (A : Type) :=
  | Ok (a : A)
  | Raise (e : pyerror).
Arguments Ok {A} a.
Arguments Raise {A} e.

#[global] Instance result_ret : MRet result := λ A a, Ok a.
#[global] Instance result_bind : MBind result := λ A B f r,
  match r with
  | Ok a => f a
  | Raise e => Raise e
  end.

(** ** Numbers *)

(** The exact quotient [a / b] of two counts, for [b ≠ 0]. *)
Definition int_quot (a b : nat) : Q := Z.of_nat a # Pos.of_nat b.

(** [a / b] on integers: true division, [ZeroDivisionError] when [b = 0]. *)
Definition py_truediv (a b : nat) : result Q :=
  match b with
  | O => Raise ZeroDivisionError
  | S _ => Ok (int_quot a b)
  end.

(** [math.log x]: [ValueError] unless [x > 0]. *)
Definition py_log (x : Q) : result R :=
  if Qle_bool x 0 then Raise ValueError else Ok (ln (Q2R x)).

(** [t[i]] on a tuple, for [i ≥ 0]. *)
Definition py_index {A} (t : list A) (i : nat) : result A :=
  match t !! i with
  | Some x => Ok x
  | None => Raise IndexError
  end.

(** ** Counting *)

Section Counter.
Context `{Countable K}.

(** [Counter.update(iterable)]: [self[elem] = self.get(elem, 0) + 1] for
    every element in turn. *)
Definition counter_update (c : gmap K nat) (elems : list K) : gmap K nat :=
  foldl (λ c elem, <[elem := default 0 (c !! elem) + 1]> c) c elems.

(** [Counter(iterable)], and [nltk.FreqDist(iterable)], which is a
    [Counter]. *)
Definition Counter (elems : list K) : gmap K nat := counter_update ∅ elems.

(** [sum(d.values())] *)
Definition sum_values (d : gmap K nat) : nat :=
  map_fold (λ _ v acc, v + acc) 0 d.
End Counter.

(** ** Console output and written artifacts

    A run is observed through the lines it prints, the directories it
    creates and the JSON artifacts it writes.  The payload of an artifact is
    the table handed to [json.dump]; the rendering of its keys
    ([" ".join(gram)]) and of the JSON text is not modelled.  Input files
    are a finite map from path to decoded text, read-only during a run. *)

Inductive artifact :=
  | CountsTable (t : gmap (list pystr) nat)
  | LogProbTable (t : gmap (list pystr) R)
  | ProbTable (t : gmap (list pystr) Q)
  | VocabTable (words : gset pystr)
  | VocabRevTable (words : gset pystr)
  | Summary (unigrams bigrams trigrams quadrigrams pentagrams
             total_tokens vocabulary_size : nat).

Inductive event :=
  | Stdout (line : string)
  | MakeDirs (path : string)
  | JsonDump (path : string) (a : artifact).

Definition nl : string := String (Ascii.ascii_of_nat 10) EmptyString.

(** * [keyboard_suggestion/amazigh/pipeline.py] *)

Module Pipeline.

Definition clean_text (text : pystr) : pystr :=
  let text := re_sub_space m_tag text in
  let text := re_sub_space m_template text in
  let text := re_sub_space m_wikilink text in
  let text := re_sub_space m_extlink text in
  let text := re_sub_space m_disallowed text in
  let text := re_sub_space m_spaces text in
  strip text.

Section Tokenize.
(** [str.lower()] depends on the Unicode character database and is a
    parameter of the embedding. *)
Variable lower : pystr → pystr.

Definition tokenize (text : pystr) : list pystr :=
  let text := lower text in
  let tokens := split text in
  tokens.
End Tokenize.

(** [build_ngrams]:
    [for i in range(len(tokens) - n + 1): ngrams.append(tuple(tokens[i:i + n]))].
    The order [n] is a natural number; [range] of a non-positive bound is
    empty. *)
Definition build_ngrams {token} (tokens : list token) (n : nat) : list (list token) :=
  (λ i, take n (drop i tokens)) <$>
    seq 0 (Z.to_nat (Z.of_nat (length tokens) - Z.of_nat n + 1)).

Section Estimator.
Context `{Countable token}.

Local Abbreviation gram := (list token).

(** The quotient of line 44, [(count + 1) / (prefix_count + vocab_size)],
    as a function of the gram and its count. *)
Definition smoothed_prob (lower_counts : gmap gram nat)
    (ngram : gram) (count : nat) : result Q :=
  let vocab_size := size lower_counts in
  let prefix := removelast ngram in
  let prefix_count := default 0 (lower_counts !! prefix) in
  py_truediv (count + 1) (prefix_count + vocab_size).

(** [calculate_probabilities]: the loop over [ngram_counts.items()]; the
    first exception ends it. *)
Definition calculate_probabilities
    (ngram_counts lower_counts : gmap gram nat) : result (gmap gram R) :=
  map_fold (λ ngram count acc,
              probabilities ← acc;
              prob ← smoothed_prob lower_counts ngram count;
              l ← py_log prob;
              mret (<[ngram := (- l)%R]> probabilities))
           (mret ∅) ngram_counts.

(** Lines 62-66 of [process_corpus]: the five count tables. *)
Definition count_grams (tokens : list token) : gmap nat (gmap gram nat) :=
  let counts : gmap nat (gmap gram nat) :=
    list_to_map ((λ n, (n, ∅)) <$> seq 1 5) in
  foldl (λ counts n,
           let grams := build_ngrams tokens n in
           <[n := counter_update (counts !!! n) grams]> counts)
        counts (seq 1 5).

(** Lines 69-75 of [process_corpus]: the four score tables. *)
Definition estimate (counts : gmap nat (gmap gram nat))
    : result (gmap nat (gmap gram R)) :=
  foldl (λ acc n,
           probabilities ← acc;
           p ← calculate_probabilities (counts !!! n) (counts !!! (n - 1));
           mret (<[n := p]> probabilities))
        (mret ∅) (seq 2 4).
End Estimator.

Section Run.
Variable lower : pystr → pystr.

Definition write_counts (output_prefix : string)
    (counts : gmap nat (gmap (list pystr) nat)) : list event :=
  (λ n, JsonDump (output_prefix +:+ "_" +:+ pretty n +:+ "gram_counts.json")
                  (CountsTable (counts !!! n))) <$> seq 1 5.

Definition write_logproba (output_prefix : string)
    (probabilities : gmap nat (gmap (list pystr) R)) : list event :=
  (λ n, JsonDump (output_prefix +:+ "_" +:+ pretty n +:+ "gram_logproba.json")
                  (LogProbTable (probabilities !!! n))) <$> seq 2 4.

(** [process_corpus]: the events of the call and how it ends. *)
Definition process_corpus (fs : gmap string pystr)
    (input_file output_prefix : string) : list event * result () :=
  match fs !! input_file with
  | None => ([], Raise FileNotFoundError)
  | Some text =>
      let text := clean_text text in
      let tokens := tokenize lower text in
      let out := [Stdout ("Total tokens: " +:+ pretty (length tokens))] in
      let counts := count_grams tokens in
      match estimate counts with
      | Raise e => (out, Raise e)
      | Ok probabilities =>
          (out ++ write_counts output_prefix counts
               ++ write_logproba output_prefix probabilities
               ++ [Stdout " Terminé – fichiers générés :";
                   Stdout "    - counts 1→5-gram";
                   Stdout "    - log-probabilités 2→5-gram"],
           Ok ())
      end
  end.

(** The module's top-level statement. *)
Definition main (fs : gmap string pystr) : list event * result () :=
  process_corpus fs "kabyle_corpus.txt" "kabyle".
End Run.

End Pipeline.

(** * [keyboard_suggestion/ngrams_tp.py] *)

(** [nltk.util.ngrams(sequence, n)] for [n ≥ 1] (a library function): the
    windows of [n] consecutive items, in order.  [bigrams] and [trigrams]
    are its instances at 2 and 3. *)
Fixpoint ngrams {token} (sequence : list token) (n : nat) : list (list token) :=
  match sequence with
  | [] => []
  | _ :: rest =>
      if decide (n ≤ length sequence)
      then take n sequence :: ngrams rest n
      else []
  end.
Definition bigrams {token} (sequence : list token) := ngrams sequence 2.
Definition trigrams {token} (sequence : list token) := ngrams sequence 3.

Module NgramsTp.

Section Tokenize.
(** [str.lower()] and the class [\w] depend on the Unicode character
    database and are parameters of the embedding. *)
Variable lower : pystr → pystr.
Variable is_word : char → bool.

(** [re.findall(r'\w+|[^\w\s]', word)]: [run] accumulates the current
    run of word characters in reverse. *)
Fixpoint findall_from (run : pystr) (s : pystr) : list pystr :=
  let flush := match run with [] => [] | _ => [rev run] end in
  match s with
  | [] => flush
  | c :: r =>
      if is_word c then findall_from (c :: run) r
      else flush ++ (if is_space c then [] else [[c]]) ++ findall_from [] r
  end.

Definition simple_tokenize (text : pystr) : list pystr :=
  let text := lower text in
  let words := split text in
  let tokens := words ≫= findall_from [] in
  filter (λ t, strip t ≠ []) tokens.

Definition process_text_to_tokens (sentences : list pystr) : list pystr :=
  sentences ≫= simple_tokenize.
End Tokenize.

Definition FILE_PATHS : list (string * string) :=
  [("arabic", "extracted/arabic/ara-dz_newscrawl-OSIAN_2018_10K/ara-dz_newscrawl-OSIAN_2018_10K-sentences.txt");
   ("english", "extracted/english/eng_news_2024_10K/eng_news_2024_10K-sentences.txt");
   ("french", "extracted/french/fra_news_2024_10K/fra_news_2024_10K-sentences.txt")].

(** Iterating over a text file: the lines, each with its newline. *)
Fixpoint file_lines_from (line : pystr) (s : pystr) : list pystr :=
  match s with
  | [] => match line with [] => [] | _ => [rev line] end
  | c :: r =>
      if (c =? newline)%N then rev (c :: line) :: file_lines_from [] r
      else file_lines_from (c :: line) r
  end.

(** [line.split('\t', 1)] *)
Fixpoint split_tab_from (before : pystr) (s : pystr) : list pystr :=
  match s with
  | [] => [rev before]
  | c :: r => if (c =? 0x09)%N then [rev before; r] else split_tab_from (c :: before) r
  end.

Definition sentence_of_line (line : pystr) : list pystr :=
  let line := strip line in
  match line with
  | [] => []
  | _ =>
      match split_tab_from [] line with
      | _ :: sentence :: _ => [sentence]
      | _ => [line]
      end
  end.

(** [read_sentences_file]: what is printed, and the sentences. *)
Definition read_sentences_file (fs : gmap string pystr) (file_path : string)
    : list event * list pystr :=
  match fs !! file_path with
  | Some text => ([], file_lines_from [] text ≫= sentence_of_line)
  | None => ([Stdout ("Warning: File not found: " +:+ file_path)], [])
  end.

Section Estimator.
Context `{Countable token}.

Local Abbreviation gram := (list token).

(** [calculate_probabilities]: one entry per entry of [ngram_freq]. *)
Definition calculate_probabilities
    (ngram_freq prev_ngram_freq : gmap gram nat) : gmap gram Q :=
  map_imap (λ ngram count,
    Some (if decide (1 < length ngram) then
            let prev_ngram := removelast ngram in
            let prev_count := default 0 (prev_ngram_freq !! prev_ngram) in
            if decide (0 < prev_count) then int_quot count prev_count
            else 0%Q
          else
            let total := sum_values ngram_freq in
            if decide (0 < total) then int_quot count total
            else 0%Q)) ngram_freq.

(** Line 136 of [process_language]. *)
Definition unigram_probs (unigrams : gmap token nat) : gmap token Q :=
  let total_unigrams := sum_values unigrams in
  (λ count, if decide (0 < total_unigrams)
            then int_quot count total_unigrams else 0%Q) <$> unigrams.

(** Lines 145-152 of [process_language]: the loop over
    [bigram_freq.items()]. *)
Definition bigram_probs (unigrams : gmap token nat)
    (bigram_freq : gmap gram nat) : result (gmap gram Q) :=
  map_fold (λ bigram count acc,
              bigram_probs ← acc;
              w1 ← py_index bigram 0;
              let w1_count := default 0 (unigrams !! w1) in
              mret (<[bigram := if decide (0 < w1_count)
                                then int_quot count w1_count
                                else 0%Q]> bigram_probs))
           (mret ∅) bigram_freq.

(** The tables of [process_language]: [ngram_freqs] and [ngram_probs],
    keyed by the order and then by the gram ([ngram_to_string] of a
    one-word tuple is the word). *)
Record tables := {
  unigrams : gmap token nat;
  bigram_freq : gmap gram nat;
  trigram_freq : gmap gram nat;
  quadrigram_freq : gmap gram nat;
  pentagram_freq : gmap gram nat;
  ngram_freqs : gmap nat (gmap gram nat);
  ngram_probs : gmap nat (gmap gram Q)
}.

Definition tuple1 (word : token) : gram := [word].

Definition build_tables (tokens : list token) : result tables :=
  let unigrams := Counter tokens in
  let ngram_freqs : gmap nat (gmap gram nat) := <[1 := kmap tuple1 unigrams]> ∅ in
  let ngram_probs : gmap nat (gmap gram Q) :=
    <[1 := kmap tuple1 (unigram_probs unigrams)]> ∅ in
  let bigram_list := bigrams tokens in
  let bigram_freq := Counter bigram_list in
  let ngram_freqs := <[2 := bigram_freq]> ngram_freqs in
  bigram_probs ← bigram_probs unigrams bigram_freq;
  let ngram_probs := <[2 := bigram_probs]> ngram_probs in
  let trigram_list := trigrams tokens in
  let trigram_freq := Counter trigram_list in
  let ngram_freqs := <[3 := trigram_freq]> ngram_freqs in
  let ngram_probs :=
    <[3 := calculate_probabilities trigram_freq bigram_freq]> ngram_probs in
  let quadrigram_list := ngrams tokens 4 in
  let quadrigram_freq := Counter quadrigram_list in
  let ngram_freqs := <[4 := quadrigram_freq]> ngram_freqs in
  let ngram_probs :=
    <[4 := calculate_probabilities quadrigram_freq trigram_freq]> ngram_probs in
  let pentagram_list := ngrams tokens 5 in
  let pentagram_freq := Counter pentagram_list in
  let ngram_freqs := <[5 := pentagram_freq]> ngram_freqs in
  let ngram_probs :=
    <[5 := calculate_probabilities pentagram_freq quadrigram_freq]> ngram_probs in
  mret {| unigrams := unigrams; bigram_freq := bigram_freq;
          trigram_freq := trigram_freq; quadrigram_freq := quadrigram_freq;
          pentagram_freq := pentagram_freq;
          ngram_freqs := ngram_freqs; ngram_probs := ngram_probs |}.
End Estimator.

(** [ngram_to_string]: [' '.join(ngram)]. *)
Definition ngram_to_string (ngram : list pystr) : pystr :=
  py_join [space] ngram.

Section Run.
Variable lower : pystr → pystr.
Variable is_word : char → bool.

Definition save_tables (output_dir : string) (tokens : list pystr)
    (t : tables (token := pystr)) : list event :=
  let vocab : gset pystr := list_to_set tokens in
  [Stdout "Saving n-gram frequencies..."]
  ++ ((λ n, JsonDump (output_dir +:+ "/" +:+ pretty n +:+ "gram.json")
                     (CountsTable (ngram_freqs t !!! n))) <$> seq 1 5)
  ++ [Stdout "Saving probabilities..."]
  ++ ((λ n, JsonDump (output_dir +:+ "/prob_" +:+ pretty n +:+ "gram.json")
                     (ProbTable (ngram_probs t !!! n))) <$> seq 2 4)
  ++ [Stdout "Saving vocabulary...";
      JsonDump (output_dir +:+ "/vocab.json") (VocabTable vocab);
      JsonDump (output_dir +:+ "/vocab_rev.json") (VocabRevTable vocab);
      JsonDump (output_dir +:+ "/freq.json")
        (Summary (size (unigrams t)) (size (bigram_freq t))
                 (size (trigram_freq t)) (size (quadrigram_freq t))
                 (size (pentagram_freq t)) (length tokens) (size vocab))].

(** [process_language]: the events of the call and how it ends. *)
Definition process_language (fs : gmap string pystr)
    (lang file_path : string) : list event * result () :=
  let out := [Stdout (nl +:+ "Processing " +:+ lang +:+ "...")] in
  let '(warned, sentences) := read_sentences_file fs file_path in
  let out := out ++ warned in
  match sentences with
  | [] => (out ++ [Stdout ("No sentences found for " +:+ lang)], Ok ())
  | _ =>
      let out := out ++ [Stdout ("Read " +:+ pretty (length sentences) +:+ " sentences")] in
      let tokens := process_text_to_tokens lower is_word sentences in
      let out := out ++ [Stdout ("Generated " +:+ pretty (length tokens) +:+ " tokens")] in
      let output_dir := "ngrams_tp/" +:+ lang in
      let out := out ++ [MakeDirs output_dir;
                         Stdout "Generating unigrams...";
                         Stdout "Generating bigrams..."] in
      match build_tables tokens with
      | Raise e => (out, Raise e)
      | Ok t =>
          (out ++ [Stdout "Generating trigrams...";
                   Stdout "Generating quadrigrams...";
                   Stdout "Generating pentagrams..."]
               ++ save_tables output_dir tokens t
               ++ [Stdout ("Completed processing " +:+ lang);
                   Stdout ("  - Vocabulary size: " +:+ pretty (size (list_to_set tokens : gset pystr)));
                   Stdout ("  - Unigrams: " +:+ pretty (size (unigrams t)));
                   Stdout ("  - Bigrams: " +:+ pretty (size (bigram_freq t)));
                   Stdout ("  - Trigrams: " +:+ pretty (size (trigram_freq t)));
                   Stdout ("  - Quadrigrams: " +:+ pretty (size (quadrigram_freq t)));
                   Stdout ("  - Pentagrams: " +:+ pretty (size (pentagram_freq t)))],
           Ok ())
      end
  end.

(** The [__main__] block over a configuration [file_paths]: an exception
    of [process_language] ends the run. *)
Fixpoint main_loop (fs : gmap string pystr)
    (file_paths : list (string * string)) : list event * result () :=
  match file_paths with
  | [] => ([Stdout (nl +:+ "All processing complete!")], Ok ())
  | (lang, file_path) :: others =>
      let '(out, r) :=
        match fs !! file_path with
        | Some _ => process_language fs lang file_path
        | None => ([Stdout ("Warning: File not found: " +:+ file_path)], Ok ())
        end in
      match r with
      | Raise e => (out, Raise e)
      | Ok _ => let '(out', r') := main_loop fs others in (out ++ out', r')
      end
  end.

Definition main (fs : gmap string pystr) : list event * result () :=
  main_loop fs FILE_PATHS.
End Run.

End NgramsTp.

(** * Properties *)

(** Number of occurrences of [k] in a list. *)
Definition occ `{EqDecision K} (k : K) (l : list K) : nat :=
  length (filter (λ e, e = k) l).

(** ** Counting *)

Section CounterFacts.
Context `{Countable K}.
Implicit Types (c : gmap K nat) (l : list K) (k : K).

Lemma occ_nil k : occ k [] = 0.
Proof. reflexivity. Qed.

Lemma occ_cons k e l :
  occ k (e :: l) = (if decide (e = k) then 1 else 0) + occ k l.
Proof. unfold occ. rewrite filter_cons. by destruct (decide (e = k)). Qed.

Lemma occ_le_length k l : occ k l ≤ length l.
Proof. unfold occ. apply length_filter. Qed.

Lemma occ_pos_elem_of k l : 0 < occ k l ↔ k ∈ l.
Proof.
  induction l as [|e l IH]; [rewrite occ_nil; split; [lia | by inversion 1] |].
  rewrite occ_cons, elem_of_cons.
  destruct (decide (e = k)) as [->|Hne]; [split; [auto | lia] |].
  simpl. rewrite IH. split; [auto | by intros [?|?]].
Qed.

Lemma counter_update_lookup c l k :
  counter_update c l !! k =
    if decide (occ k l = 0) then c !! k
    else Some (default 0 (c !! k) + occ k l).
Proof.
  unfold counter_update. revert c.
  induction l as [|e l IH]; intros c; [done |].
  simpl foldl. rewrite IH, occ_cons.
  destruct (decide (e = k)) as [->|Hne].
  - rewrite lookup_insert_eq. simpl default.
    repeat case_decide; try lia; f_equal; lia.
  - rewrite lookup_insert_ne by done. simpl.
    by repeat case_decide.
Qed.

Lemma Counter_lookup l k :
  Counter l !! k = if decide (occ k l = 0) then None else Some (occ k l).
Proof.
  unfold Counter. rewrite counter_update_lookup, lookup_empty.
  by destruct (decide _).
Qed.

Lemma Counter_lookup_Some l k n :
  Counter l !! k = Some n ↔ n = occ k l ∧ 0 < n.
Proof.
  rewrite Counter_lookup. destruct (decide _) as [Hz|Hnz].
  - split; [done | intros [-> ?]; lia].
  - split; [intros [= <-]; lia | by intros [-> _]].
Qed.

Lemma Counter_lookup_None l k : Counter l !! k = None ↔ k ∉ l.
Proof.
  rewrite Counter_lookup, <- occ_pos_elem_of.
  destruct (decide _); [split; [lia | done] | split; [done | lia]].
Qed.

Lemma Counter_nil : Counter ([] : list K) = ∅.
Proof. reflexivity. Qed.

Lemma Counter_empty_iff l : Counter l = ∅ ↔ l = [].
Proof.
  split; [| by intros ->].
  destruct l as [|e l]; [done |]. intros Hc.
  assert (Counter (e :: l) !! e = None) as Hn by (by rewrite Hc).
  apply Counter_lookup_None in Hn. set_solver.
Qed.

Lemma sum_values_insert (d : gmap K nat) k v :
  d !! k = None → sum_values (<[k := v]> d) = v + sum_values d.
Proof.
  intros Hk. unfold sum_values.
  rewrite map_fold_insert_L; [done | intros; lia | done].
Qed.

Lemma sum_values_lookup_le (d : gmap K nat) k v :
  d !! k = Some v → v ≤ sum_values d.
Proof.
  revert k v. induction d as [|j x d Hj IH] using map_ind; [done |].
  intros k v. rewrite sum_values_insert by done.
  destruct (decide (j = k)) as [->|Hne].
  - rewrite lookup_insert_eq. intros [= ->]. lia.
  - rewrite lookup_insert_ne by done. intros Hk%IH. lia.
Qed.
End CounterFacts.

(** ** Sliding windows *)

Section NgramFacts.
Context {token : Type}.
Implicit Types (tokens : list token) (n : nat).

Lemma build_ngrams_seq tokens n :
  Pipeline.build_ngrams tokens n =
    (λ i, take n (drop i tokens)) <$> seq 0 (S (length tokens) - n).
Proof. unfold Pipeline.build_ngrams. do 2 f_equal. lia. Qed.

Lemma build_ngrams_length tokens n :
  length (Pipeline.build_ngrams tokens n) = S (length tokens) - n.
Proof. by rewrite build_ngrams_seq, length_fmap, length_seq. Qed.

Lemma build_ngrams_lookup tokens n i :
  i < S (length tokens) - n →
  Pipeline.build_ngrams tokens n !! i = Some (take n (drop i tokens)).
Proof.
  intros Hi. rewrite build_ngrams_seq, list_lookup_fmap.
  by rewrite lookup_seq_lt.
Qed.

Lemma build_ngrams_cons x tokens n :
  Pipeline.build_ngrams (x :: tokens) n =
    if decide (n ≤ S (length tokens))
    then take n (x :: tokens) :: Pipeline.build_ngrams tokens n
    else [].
Proof.
  rewrite !build_ngrams_seq. simpl length.
  destruct (decide (n ≤ S (length tokens))) as [Hle|Hgt].
  - replace (S (S (length tokens)) - n) with (S (S (length tokens) - n)) by lia.
    rewrite <- cons_seq, fmap_cons. f_equal.
    rewrite <- fmap_S_seq, <- list_fmap_compose. done.
  - by replace (S (S (length tokens)) - n) with 0 by lia.
Qed.

(** On orders [n ≥ 1] the library's [ngrams] and [build_ngrams] agree. *)
Lemma ngrams_build_ngrams tokens n :
  1 ≤ n → ngrams tokens n = Pipeline.build_ngrams tokens n.
Proof.
  intros Hn. induction tokens as [|x tokens IH].
  - rewrite build_ngrams_seq. simpl.
    by replace (1 - n) with 0 by lia.
  - rewrite build_ngrams_cons. simpl ngrams. simpl length.
    destruct (decide _); [by rewrite IH | done].
Qed.

Lemma removelast_take (l : list token) n :
  n ≤ length l → removelast (take n l) = take (n - 1) l.
Proof.
  intros Hn. destruct n as [|n]; [by destruct l |].
  replace (S n - 1) with n by lia.
  apply removelast_firstn. lia.
Qed.

Lemma build_ngrams_gram_length tokens n g :
  g ∈ Pipeline.build_ngrams tokens n → length g = n.
Proof.
  rewrite build_ngrams_seq. intros (i & -> & Hi)%list_elem_of_fmap.
  apply elem_of_seq in Hi.
  rewrite length_take, length_drop. lia.
Qed.
End NgramFacts.

Section Dominance.
Context `{Countable token}.
Implicit Types (tokens : list token) (g : list token) (n : nat).

(** A window occurs at most as often as its prefix occurs one order
    lower: a gram at position [i] puts its prefix at position [i]. *)
Lemma occ_prefix_le tokens n g :
  1 ≤ n →
  occ g (Pipeline.build_ngrams tokens n)
  ≤ occ (removelast g) (Pipeline.build_ngrams tokens (n - 1)).
Proof.
  intros Hn. induction tokens as [|x tokens IH].
  - rewrite (build_ngrams_seq [] n). simpl length.
    replace (1 - n) with 0 by lia. simpl. rewrite occ_nil. lia.
  - rewrite !build_ngrams_cons.
    destruct (decide (n ≤ S (length tokens))) as [Hle|Hgt];
      [| rewrite occ_nil; lia].
    destruct (decide (n - 1 ≤ S (length tokens))); [| lia].
    rewrite !occ_cons.
    destruct (decide (take n (x :: tokens) = g)) as [<-|Hne]; [| simpl; lia].
    rewrite removelast_take in IH |- * by (simpl; lia).
    destruct (decide _); [lia | done].
Qed.

Lemma counted_prefix_dominates tokens n g c :
  2 ≤ n →
  Counter (Pipeline.build_ngrams tokens n) !! g = Some c →
  ∃ pc, Counter (Pipeline.build_ngrams tokens (n - 1)) !! removelast g = Some pc
    ∧ c ≤ pc.
Proof.
  intros Hn [-> Hc]%Counter_lookup_Some.
  pose proof (occ_prefix_le tokens n g) as Hle.
  eexists. split; [| apply Hle; lia].
  apply Counter_lookup_Some. split; [done | lia].
Qed.

(** Occurrences of a word and of its one-word gram. *)
Lemma occ_unigram tokens (w : token) :
  occ [w] (Pipeline.build_ngrams tokens 1) = occ w tokens.
Proof.
  induction tokens as [|x tokens IH].
  - done.
  - rewrite build_ngrams_cons.
    destruct (decide _) as [_|Hgt]; [| lia].
    rewrite !occ_cons, IH. simpl take. rewrite take_0.
    destruct (decide (x = w)) as [->|Hne].
    + by destruct (decide _).
    + destruct (decide _) as [[= ?]|]; done.
Qed.
End Dominance.

(** ** Exact quotients and logarithms *)

Lemma Zpos_of_nat (b : nat) : b ≠ 0 → Z.pos (Pos.of_nat b) = Z.of_nat b.
Proof. intros Hb. destruct b; [done |]. lia. Qed.

Lemma Q2R_int_quot (a b : nat) :
  b ≠ 0 → Q2R (int_quot a b) = (INR a / INR b)%R.
Proof.
  intros Hb. unfold int_quot, Q2R. simpl Qnum. simpl Qden.
  by rewrite Zpos_of_nat, !INR_IZR_INZ.
Qed.

Lemma int_quot_pos (a b : nat) : 0 < a → (0 < int_quot a b)%Q.
Proof. intros Ha. unfold int_quot, Qlt. simpl. lia. Qed.

Lemma int_quot_nonneg (a b : nat) : (0 <= int_quot a b)%Q.
Proof. unfold int_quot, Qle. simpl. lia. Qed.

Lemma int_quot_le_1 (a b : nat) : a ≤ b → b ≠ 0 → (int_quot a b <= 1)%Q.
Proof.
  intros Hab Hb. unfold int_quot, Qle. simpl.
  rewrite Zpos_of_nat by done. lia.
Qed.

Lemma py_truediv_Ok (a b : nat) : b ≠ 0 → py_truediv a b = Ok (int_quot a b).
Proof. by destruct b. Qed.

Lemma py_truediv_Ok_inv (a b : nat) (q : Q) :
  py_truediv a b = Ok q → b ≠ 0 ∧ q = int_quot a b.
Proof. destruct b; [done |]. by intros [= <-]. Qed.

Lemma py_log_Ok (x : Q) : (0 < x)%Q → py_log x = Ok (ln (Q2R x)).
Proof.
  intros Hx. unfold py_log.
  destruct (Qle_bool x 0) eqn:Hle; [| done].
  apply Qle_bool_iff in Hle. by apply Qle_not_lt in Hle.
Qed.

(** The score of a gram with count [c] whose prefix has count [pc] under a
    lower-order table with [V] distinct keys. *)
Definition score (c pc V : nat) : R :=
  (- ln ((INR c + 1) / (INR pc + INR V)))%R.

Lemma score_int_quot (c pc V : nat) :
  pc + V ≠ 0 → (- ln (Q2R (int_quot (c + 1) (pc + V))))%R = score c pc V.
Proof.
  intros Hd. unfold score.
  by rewrite Q2R_int_quot, !plus_INR by done.
Qed.

Lemma score_nonneg (c pc V : nat) : c + 1 ≤ pc + V → (0 <= score c pc V)%R.
Proof.
  intros Hle. unfold score.
  assert (0 < INR c + 1)%R as Hnum by (pose proof (pos_INR c); lra).
  assert (INR c + 1 <= INR pc + INR V)%R as Hle'.
  { rewrite <- !plus_INR. change 1%R with (INR 1). rewrite <- plus_INR.
    by apply le_INR. }
  assert (0 < (INR c + 1) / (INR pc + INR V) <= 1)%R as [Hpos Hone].
  { split.
    - apply Rdiv_lt_0_compat; lra.
    - apply (Rmult_le_reg_r (INR pc + INR V)); [lra |].
      unfold Rdiv. rewrite Rmult_assoc, Rinv_l by lra. lra. }
  destruct Hone as [Hlt | ->]; [| rewrite ln_1; lra].
  pose proof (ln_increasing _ _ Hpos Hlt) as Hln. rewrite ln_1 in Hln. lra.
Qed.

(** ** Policy A: the estimator of [pipeline.py] *)

Section PolicyAFacts.
Context `{Countable token}.
Implicit Types (nc lc : gmap (list token) nat) (g : list token).

Lemma smoothed_prob_Ok lc g c :
  lc ≠ ∅ →
  Pipeline.smoothed_prob lc g c
  = Ok (int_quot (c + 1) (default 0 (lc !! removelast g) + size lc)).
Proof.
  intros Hne%map_size_non_empty_iff. unfold Pipeline.smoothed_prob.
  apply py_truediv_Ok. lia.
Qed.

Lemma smoothed_prob_no_lower g c :
  Pipeline.smoothed_prob (∅ : gmap (list token) nat) g c
  = Raise ZeroDivisionError.
Proof.
  unfold Pipeline.smoothed_prob. by rewrite lookup_empty, map_size_empty.
Qed.

Lemma calculate_probabilities_empty lc :
  Pipeline.calculate_probabilities ∅ lc = Ok ∅.
Proof. unfold Pipeline.calculate_probabilities. by rewrite map_fold_empty. Qed.

Lemma calculate_probabilities_Ok nc lc :
  lc ≠ ∅ →
  ∃ probs, Pipeline.calculate_probabilities nc lc = Ok probs
    ∧ ∀ g, probs !! g
           = (λ c, score c (default 0 (lc !! removelast g)) (size lc))
               <$> nc !! g.
Proof.
  intros Hne. unfold Pipeline.calculate_probabilities.
  apply (map_fold_weak_ind (λ r m, ∃ probs, r = Ok probs
    ∧ ∀ g, probs !! g
           = (λ c, score c (default 0 (lc !! removelast g)) (size lc))
               <$> m !! g)).
  - exists ∅. split; [done |]. intros g. by rewrite !lookup_empty.
  - intros g c m r Hg (probs & -> & Hl). simpl.
    rewrite smoothed_prob_Ok by done. simpl.
    rewrite py_log_Ok by (apply int_quot_pos; lia). simpl.
    eexists. split; [reflexivity |]. intros g'.
    destruct (decide (g = g')) as [<-|Hgg].
    + rewrite !lookup_insert_eq. simpl. f_equal.
      apply score_int_quot. apply map_size_non_empty_iff in Hne. lia.
    + by rewrite !lookup_insert_ne.
Qed.

(** With an empty lower-order table the first division fails. *)
Lemma calculate_probabilities_no_lower nc :
  nc ≠ ∅ → Pipeline.calculate_probabilities nc ∅ = Raise ZeroDivisionError.
Proof.
  intros Hnc. unfold Pipeline.calculate_probabilities.
  cut (Pipeline.calculate_probabilities nc ∅ = Ok ∅ ∧ nc = ∅
       ∨ Pipeline.calculate_probabilities nc ∅ = Raise ZeroDivisionError).
  { by intros [[_ ?]|?]. }
  unfold Pipeline.calculate_probabilities.
  apply (map_fold_weak_ind (λ r (m : gmap (list token) nat),
    r = Ok ∅ ∧ m = ∅ ∨ r = Raise ZeroDivisionError)); [by left |].
  intros g c m r Hg [[-> ->]| ->]; right; simpl; [| done].
  by rewrite smoothed_prob_no_lower.
Qed.
End PolicyAFacts.

(** ** Policy A: the tables of [process_corpus] *)

Section PipelineFacts.
Context `{Countable token}.
Implicit Types (tokens : list token) (g : list token) (n : nat).

Local Ltac peel_inserts :=
  repeat first
    [ rewrite lookup_total_insert_eq
    | rewrite lookup_total_insert_ne by done
    | rewrite lookup_insert_eq
    | rewrite lookup_insert_ne by done ].

Lemma count_grams_lookup_total tokens n :
  1 ≤ n ≤ 5 →
  Pipeline.count_grams tokens !!! n = Counter (Pipeline.build_ngrams tokens n).
Proof.
  intros Hn. unfold Pipeline.count_grams. simpl.
  assert (n = 1 ∨ n = 2 ∨ n = 3 ∨ n = 4 ∨ n = 5) as Hcases by lia.
  destruct Hcases as [->|[->|[->|[->| ->]]]]; by peel_inserts.
Qed.

Lemma count_grams_lookup tokens n :
  1 ≤ n ≤ 5 →
  Pipeline.count_grams tokens !! n
  = Some (Counter (Pipeline.build_ngrams tokens n)).
Proof.
  intros Hn. unfold Pipeline.count_grams. simpl.
  assert (n = 1 ∨ n = 2 ∨ n = 3 ∨ n = 4 ∨ n = 5) as Hcases by lia.
  destruct Hcases as [->|[->|[->|[->| ->]]]]; by peel_inserts.
Qed.

(** A non-empty table of order [n] has a non-empty table below it. *)
Lemma lower_table_nonempty tokens n :
  1 ≤ n →
  Counter (Pipeline.build_ngrams tokens n) ≠ ∅ →
  Counter (Pipeline.build_ngrams tokens (n - 1)) ≠ ∅.
Proof.
  intros Hn. rewrite !Counter_empty_iff.
  intros Hg Hl. apply Hg. apply nil_length_inv.
  apply (f_equal length) in Hl.
  rewrite build_ngrams_length in Hl |- *. simpl in Hl. lia.
Qed.

Lemma calculate_probabilities_tokens tokens n :
  1 ≤ n →
  ∃ probs,
    Pipeline.calculate_probabilities
      (Counter (Pipeline.build_ngrams tokens n))
      (Counter (Pipeline.build_ngrams tokens (n - 1))) = Ok probs
    ∧ ∀ g, probs !! g
        = (λ c, score c
                  (default 0 (Counter (Pipeline.build_ngrams tokens (n - 1))
                                !! removelast g))
                  (size (Counter (Pipeline.build_ngrams tokens (n - 1)))))
            <$> Counter (Pipeline.build_ngrams tokens n) !! g.
Proof.
  intros Hn.
  destruct (decide (Counter (Pipeline.build_ngrams tokens n) = ∅)) as [He|Hne].
  - rewrite He, calculate_probabilities_empty. exists ∅.
    split; [done |]. intros g. by rewrite !lookup_empty.
  - apply calculate_probabilities_Ok. by apply lower_table_nonempty.
Qed.

Lemma estimate_unfold (counts : gmap nat (gmap (list token) nat)) :
  Pipeline.estimate counts
  = (p2 ← Pipeline.calculate_probabilities (counts !!! 2) (counts !!! 1);
     p3 ← Pipeline.calculate_probabilities (counts !!! 3) (counts !!! 2);
     p4 ← Pipeline.calculate_probabilities (counts !!! 4) (counts !!! 3);
     p5 ← Pipeline.calculate_probabilities (counts !!! 5) (counts !!! 4);
     mret (<[5 := p5]> (<[4 := p4]> (<[3 := p3]> (<[2 := p2]> ∅))))).
Proof.
  unfold Pipeline.estimate. cbn [seq foldl Nat.sub].
  destruct (Pipeline.calculate_probabilities (counts !!! 2) (counts !!! 1));
    [| reflexivity].
  destruct (Pipeline.calculate_probabilities (counts !!! 3) (counts !!! 2));
    [| reflexivity].
  destruct (Pipeline.calculate_probabilities (counts !!! 4) (counts !!! 3));
    [| reflexivity].
  destruct (Pipeline.calculate_probabilities (counts !!! 5) (counts !!! 4));
    reflexivity.
Qed.

Lemma estimate_shape tokens :
  ∃ p2 p3 p4 p5,
    Pipeline.calculate_probabilities
      (Counter (Pipeline.build_ngrams tokens 2))
      (Counter (Pipeline.build_ngrams tokens 1)) = Ok p2
    ∧ Pipeline.calculate_probabilities
        (Counter (Pipeline.build_ngrams tokens 3))
        (Counter (Pipeline.build_ngrams tokens 2)) = Ok p3
    ∧ Pipeline.calculate_probabilities
        (Counter (Pipeline.build_ngrams tokens 4))
        (Counter (Pipeline.build_ngrams tokens 3)) = Ok p4
    ∧ Pipeline.calculate_probabilities
        (Counter (Pipeline.build_ngrams tokens 5))
        (Counter (Pipeline.build_ngrams tokens 4)) = Ok p5
    ∧ Pipeline.estimate (Pipeline.count_grams tokens)
      = Ok (<[5 := p5]> (<[4 := p4]> (<[3 := p3]> (<[2 := p2]> ∅)))).
Proof.
  destruct (calculate_probabilities_tokens tokens 2) as (p2 & E2 & _); [lia |].
  destruct (calculate_probabilities_tokens tokens 3) as (p3 & E3 & _); [lia |].
  destruct (calculate_probabilities_tokens tokens 4) as (p4 & E4 & _); [lia |].
  destruct (calculate_probabilities_tokens tokens 5) as (p5 & E5 & _); [lia |].
  cbn [Nat.sub] in E2, E3, E4, E5.
  exists p2, p3, p4, p5. repeat (split; [assumption |]).
  rewrite estimate_unfold, !count_grams_lookup_total by lia.
  rewrite E2, E3, E4, E5. reflexivity.
Qed.

Lemma estimate_Ok tokens :
  ∃ probabilities,
    Pipeline.estimate (Pipeline.count_grams tokens) = Ok probabilities
    ∧ ∀ n, 2 ≤ n ≤ 5 →
        ∃ probs, probabilities !! n = Some probs
          ∧ Pipeline.calculate_probabilities
              (Counter (Pipeline.build_ngrams tokens n))
              (Counter (Pipeline.build_ngrams tokens (n - 1))) = Ok probs.
Proof.
  destruct (estimate_shape tokens)
    as (p2 & p3 & p4 & p5 & E2 & E3 & E4 & E5 & He).
  eexists. split; [exact He |]. intros n Hn.
  assert (n = 2 ∨ n = 3 ∨ n = 4 ∨ n = 5) as Hcases by lia.
  destruct Hcases as [->|[->|[-> | ->]]]; eexists;
    (split; [by peel_inserts | assumption]).
Qed.

Lemma estimate_keys tokens probabilities n probs :
  Pipeline.estimate (Pipeline.count_grams tokens) = Ok probabilities →
  probabilities !! n = Some probs →
  2 ≤ n ≤ 5.
Proof.
  destruct (estimate_shape tokens)
    as (p2 & p3 & p4 & p5 & _ & _ & _ & _ & ->).
  intros [= <-] Hn.
  destruct (decide (2 ≤ n ≤ 5)) as [|Hout]; [done |].
  rewrite !lookup_insert_ne, lookup_empty in Hn by lia. done.
Qed.
End PipelineFacts.

(** ** N-gram construction *)

(** C6. For a token sequence of length [L] and an order [n],
    [build_ngrams] produces exactly [max(0, L - n + 1)] grams; the gram at
    index [i] is the slice [tokens[i : i + n]]: it has [n] tokens and its
    [j]-th token is [tokens[i + j]], so the grams come in the order of their
    occurrence and repeated grams are kept; for [n > L] the result is the
    empty list. *)
Theorem build_ngrams_windows {token} (tokens : list token) (n : nat) :
  Z.of_nat (length (Pipeline.build_ngrams tokens n))
  = Z.max 0 (Z.of_nat (length tokens) - Z.of_nat n + 1)
  ∧ (∀ i, i < length (Pipeline.build_ngrams tokens n) →
       ∃ gram, Pipeline.build_ngrams tokens n !! i = Some gram
         ∧ gram = take n (drop i tokens)
         ∧ length gram = n
         ∧ ∀ j, j < n → gram !! j = tokens !! (i + j))
  ∧ (length tokens < n → Pipeline.build_ngrams tokens n = []).
Proof.
  split; [rewrite build_ngrams_length; lia |]. split.
  - intros i. rewrite build_ngrams_length. intros Hi.
    exists (take n (drop i tokens)).
    split; [by apply build_ngrams_lookup |]. split; [done |]. split.
    + rewrite length_take, length_drop. lia.
    + intros j Hj. by rewrite lookup_take_lt, lookup_drop.
  - intros Hlt. apply nil_length_inv. rewrite build_ngrams_length. lia.
Qed.

Lemma build_ngrams_windows_witness :
  2 < length (Pipeline.build_ngrams ["a"; "b"; "a"; "b"; "c"] 2)
  ∧ (∃ gram, Pipeline.build_ngrams ["a"; "b"; "a"; "b"; "c"] 2 !! 2 = Some gram
       ∧ gram = take 2 (drop 2 ["a"; "b"; "a"; "b"; "c"])
       ∧ length gram = 2
       ∧ ∀ j, j < 2 → gram !! j = ["a"; "b"; "a"; "b"; "c"] !! (2 + j))
  ∧ Pipeline.build_ngrams ["a"; "b"; "a"; "b"; "c"] 6 = [].
Proof.
  split; [vm_compute; lia |]. split.
  - apply (proj1 (proj2 (build_ngrams_windows ["a"; "b"; "a"; "b"; "c"] 2)) 2).
    vm_compute. lia.
  - apply (proj2 (proj2 (build_ngrams_windows ["a"; "b"; "a"; "b"; "c"] 6))).
    simpl. lia.
Defined.

(** ** Prefix dominance *)

(** C10. When the tables of orders [n] and [n - 1] ([n ≥ 2]) are counted
    from the same token sequence, every gram that is a key of the order-[n]
    table has its prefix (the gram without its last token) as a key of the
    order-[n - 1] table, and the count of the prefix is at least the count of
    the gram.  This holds for the tables of [process_corpus]
    ([build_ngrams]) and for those of [process_language] ([ngrams], and the
    unigram distribution, keyed by the word, under the bigrams). *)
Theorem prefix_dominance `{Countable token} (tokens : list token) :
  (∀ n g c, 2 ≤ n →
     Counter (Pipeline.build_ngrams tokens n) !! g = Some c →
     ∃ pc, Counter (Pipeline.build_ngrams tokens (n - 1)) !! removelast g = Some pc
       ∧ c ≤ pc)
  ∧ (∀ n g c, 3 ≤ n →
     Counter (ngrams tokens n) !! g = Some c →
     ∃ pc, Counter (ngrams tokens (n - 1)) !! removelast g = Some pc ∧ c ≤ pc)
  ∧ (∀ g c,
     Counter (bigrams tokens) !! g = Some c →
     ∃ w1 pc, g !! 0 = Some w1 ∧ Counter tokens !! w1 = Some pc ∧ c ≤ pc).
Proof.
  pose proof (counted_prefix_dominates tokens) as Hmain.
  split; [exact Hmain |]. split.
  - intros n g c Hn. rewrite !ngrams_build_ngrams by lia. apply Hmain. lia.
  - intros g c. unfold bigrams. rewrite ngrams_build_ngrams by lia.
    intros Hg. pose proof Hg as [_ Hc]%Counter_lookup_Some.
    assert (g ∈ Pipeline.build_ngrams tokens 2) as Hin.
    { apply occ_pos_elem_of. apply Counter_lookup_Some in Hg. lia. }
    apply build_ngrams_gram_length in Hin.
    destruct g as [|w1 [|w2 [|]]]; try done.
    destruct (Hmain 2 _ _ (le_n 2) Hg) as (pc & Hpc & Hle).
    exists w1, pc. split; [done |]. split; [| done].
    simpl in Hpc. apply Counter_lookup_Some in Hpc as [-> Hpos].
    rewrite occ_unigram in Hpos |- *.
    by apply Counter_lookup_Some.
Qed.

Lemma prefix_dominance_witness :
  ∃ pc, Counter (Pipeline.build_ngrams ["a"; "b"; "a"; "b"; "c"] 1)
          !! removelast ["a"; "b"] = Some pc ∧ 2 ≤ pc.
Proof.
  apply (proj1 (prefix_dominance ["a"; "b"; "a"; "b"; "c"]) 2 ["a"; "b"] 2).
  - lia.
  - vm_compute. reflexivity.
Defined.

(** ** Policy A: score formula *)



(** ** Policy A: positivity *)

(** C3, as the source has it.  Every quotient the Policy A estimator
    computes is strictly positive, on any tables, and it computes one for
    every gram as soon as the lower-order table is not empty.  A score is
    non-negative when [count(g) + 1 ≤ count(prefix(g)) + V]; this is the case
    for every gram of the tables of orders 2 to 5 that [process_corpus]
    counts from one token sequence, on which the estimator always returns. *)
Theorem policyA_positive `{Countable token} :
  (∀ (lower_counts : gmap (list token) nat) g c prob,
     Pipeline.smoothed_prob lower_counts g c = Ok prob → (0 < prob)%Q)
  ∧ (∀ (ngram_counts lower_counts : gmap (list token) nat),
     lower_counts ≠ ∅ →
     ∃ probs,
       Pipeline.calculate_probabilities ngram_counts lower_counts = Ok probs
       ∧ ∀ g c, ngram_counts !! g = Some c →
           ∃ prob s, Pipeline.smoothed_prob lower_counts g c = Ok prob
             ∧ (0 < prob)%Q
             ∧ probs !! g = Some s
             ∧ s = (- ln (Q2R prob))%R
             ∧ (c + 1 ≤ default 0 (lower_counts !! removelast g)
                        + size lower_counts → (0 <= s)%R))
  ∧ (∀ (tokens : list token),
     ∃ probabilities,
       Pipeline.estimate (Pipeline.count_grams tokens) = Ok probabilities
       ∧ ∀ n probs g s,
           probabilities !! n = Some probs → probs !! g = Some s → (0 <= s)%R).
Proof.
  split; [| split].
  - intros lc g c prob [_ ->]%py_truediv_Ok_inv. apply int_quot_pos. lia.
  - intros nc lc Hlc.
    destruct (calculate_probabilities_Ok nc lc Hlc) as (probs & Hp & Hl).
    exists probs. split; [done |]. intros g c Hg.
    assert (default 0 (lc !! removelast g) + size lc ≠ 0) as Hden.
    { apply map_size_non_empty_iff in Hlc. lia. }
    eexists _, _. split; [by apply smoothed_prob_Ok |].
    split; [apply int_quot_pos; lia |].
    split; [by rewrite Hl, Hg |].
    split; [by rewrite score_int_quot |].
    apply score_nonneg.
  - intros tokens.
    destruct (estimate_Ok tokens) as (probabilities & He & Hn).
    exists probabilities. split; [done |]. intros n probs g s Hpn Hs.
    pose proof (estimate_keys tokens probabilities n probs He Hpn) as Hr.
    destruct (Hn n Hr) as (probs' & Hpn' & Hcalc).
    rewrite Hpn in Hpn'. injection Hpn' as <-.
    destruct (calculate_probabilities_tokens tokens n) as (probs' & Hcalc' & Hl);
      [lia |].
    rewrite Hcalc in Hcalc'. injection Hcalc' as <-.
    rewrite Hl in Hs.
    destruct (Counter (Pipeline.build_ngrams tokens n) !! g) as [c|] eqn:Hc;
      [| done].
    injection Hs as <-. apply score_nonneg.
    destruct (counted_prefix_dominates tokens n g c) as (pc & Hpc & Hle);
      [lia | done |].
    rewrite Hpc. simpl.
    assert (Counter (Pipeline.build_ngrams tokens (n - 1)) ≠ ∅) as Hne.
    { intros Hempty. by rewrite Hempty in Hpc. }
    apply map_size_non_empty_iff in Hne. lia.
Qed.

Lemma policyA_positive_witness :
  let ngram_counts : gmap (list string) nat := {[ ["a"; "b"] := 1 ]} in
  let lower_counts : gmap (list string) nat := {[ ["c"] := 1 ]} in
  (0 < 2 # 1)%Q
  ∧ ∃ probs,
      Pipeline.calculate_probabilities ngram_counts lower_counts = Ok probs
      ∧ ∀ g c, ngram_counts !! g = Some c →
          ∃ prob s, Pipeline.smoothed_prob lower_counts g c = Ok prob
            ∧ (0 < prob)%Q
            ∧ probs !! g = Some s
            ∧ s = (- ln (Q2R prob))%R
            ∧ (c + 1 ≤ default 0 (lower_counts !! removelast g)
                       + size lower_counts → (0 <= s)%R).
Proof.
  intros ngram_counts lower_counts.
  destruct (policyA_positive (token := string)) as (Hprob & Hfun & Hrun).
  split.
  - apply (Hprob lower_counts ["a"; "b"] 1). vm_compute. reflexivity.
  - apply Hfun. intros Hempty. apply (f_equal size) in Hempty.
    vm_compute in Hempty. lia.
Defined.

(** C3, as the specification states it, fails: with a bigram of count 1
    whose prefix is absent from a unigram table of one key, the quotient is
    [(1 + 1) / (0 + 1) = 2] and the emitted score [-ln 2] is negative. *)
Lemma policyA_negative_score :
  ∃ probs s,
    Pipeline.calculate_probabilities
      ({[ ["a"; "b"] := 1 ]} : gmap (list string) nat) {[ ["c"] := 1 ]} = Ok probs
    ∧ probs !! ["a"; "b"] = Some s
    ∧ (s < 0)%R.
Proof.
  destruct (calculate_probabilities_Ok
              ({[ ["a"; "b"] := 1 ]} : gmap (list string) nat) {[ ["c"] := 1 ]})
    as (probs & Hp & Hl).
  { apply map_size_non_empty_iff. by rewrite map_size_singleton. }
  exists probs, (score 1 0 1). split; [done |]. split.
  - rewrite Hl, lookup_singleton_eq. simpl.
    by rewrite lookup_singleton_ne, map_size_singleton.
  - unfold score. simpl.
    replace ((1 + 1) / (0 + 1))%R with 2%R by lra.
    pose proof ln_lt_2. lra.
Qed.

(** ** Policy B: the estimator of [ngrams_tp.py] *)

Section PolicyBFacts.
Context `{Countable token}.
Implicit Types (nf pf : gmap (list token) nat) (g tokens : list token).

Lemma sum_values_insert_Some (d : gmap token nat) k v0 v :
  d !! k = Some v0 → sum_values (<[k := v]> d) + v0 = sum_values d + v.
Proof.
  intros Hk.
  assert (sum_values d = v0 + sum_values (delete k d)) as ->.
  { rewrite <- (sum_values_insert (delete k d) k v0) by apply lookup_delete_eq.
    by rewrite insert_delete_eq, insert_id. }
  rewrite <- (insert_delete_eq d k v).
  rewrite sum_values_insert by apply lookup_delete_eq. lia.
Qed.

Lemma sum_values_counter_update (c : gmap token nat) (l : list token) :
  sum_values (counter_update c l) = sum_values c + length l.
Proof.
  unfold counter_update. revert c.
  induction l as [|e l IH]; intros c; simpl; [lia |].
  rewrite IH. destruct (c !! e) as [v0|] eqn:He; simpl.
  - pose proof (sum_values_insert_Some c e v0 (v0 + 1) He). lia.
  - rewrite sum_values_insert by done. lia.
Qed.

Lemma sum_values_Counter (l : list token) : sum_values (Counter l) = length l.
Proof. unfold Counter. by rewrite sum_values_counter_update. Qed.

Lemma calculate_probabilities_B_lookup nf pf g :
  NgramsTp.calculate_probabilities nf pf !! g
  = (λ count,
       if decide (1 < length g) then
         if decide (0 < default 0 (pf !! removelast g))
         then int_quot count (default 0 (pf !! removelast g)) else 0%Q
       else
         if decide (0 < sum_values nf)
         then int_quot count (sum_values nf) else 0%Q) <$> nf !! g.
Proof.
  unfold NgramsTp.calculate_probabilities. rewrite map_lookup_imap.
  by destruct (nf !! g).
Qed.

Lemma unigram_probs_lookup (unigrams : gmap token nat) (w : token) :
  NgramsTp.unigram_probs unigrams !! w
  = (λ count, if decide (0 < sum_values unigrams)
              then int_quot count (sum_values unigrams) else 0%Q)
      <$> unigrams !! w.
Proof. unfold NgramsTp.unigram_probs. by rewrite lookup_fmap. Qed.

Lemma bigram_probs_Ok (unigrams : gmap token nat) nf :
  (∀ g c, nf !! g = Some c → g ≠ []) →
  ∃ probs, NgramsTp.bigram_probs unigrams nf = Ok probs
    ∧ ∀ g, probs !! g
        = nf !! g ≫= λ count,
            (λ w1, if decide (0 < default 0 (unigrams !! w1))
                   then int_quot count (default 0 (unigrams !! w1)) else 0%Q)
              <$> g !! 0.
Proof.
  unfold NgramsTp.bigram_probs.
  apply (map_fold_weak_ind (λ r (m : gmap (list token) nat),
    (∀ g c, m !! g = Some c → g ≠ []) →
    ∃ probs, r = Ok probs
      ∧ ∀ g, probs !! g
          = m !! g ≫= λ count,
              (λ w1, if decide (0 < default 0 (unigrams !! w1))
                     then int_quot count (default 0 (unigrams !! w1)) else 0%Q)
                <$> g !! 0)).
  - intros _. exists ∅. split; [done |]. intros g. by rewrite !lookup_empty.
  - intros g c m r Hg IH Hkeys.
    destruct IH as (probs & -> & Hl).
    { intros g' c' Hg'. apply (Hkeys g' c').
      rewrite lookup_insert_ne; [done |]. intros <-. congruence. }
    assert (g ≠ []) as Hne by (apply (Hkeys g c), lookup_insert_eq).
    destruct g as [|w1 g]; [done |]. simpl.
    eexists. split; [reflexivity |]. intros g'.
    destruct (decide (w1 :: g = g')) as [<-|Hgg].
    + by rewrite !lookup_insert_eq.
    + by rewrite !lookup_insert_ne.
Qed.

Lemma bigram_keys tokens g c :
  Counter (bigrams tokens) !! g = Some c → ∃ w1 w2, g = [w1; w2].
Proof.
  unfold bigrams. rewrite ngrams_build_ngrams by lia.
  intros [-> Hc]%Counter_lookup_Some.
  assert (g ∈ Pipeline.build_ngrams tokens 2) as Hin
    by (apply occ_pos_elem_of; lia).
  apply build_ngrams_gram_length in Hin.
  destruct g as [|w1 [|w2 [|]]]; try done. by exists w1, w2.
Qed.

Lemma bigram_probs_tokens tokens :
  ∃ probs,
    NgramsTp.bigram_probs (Counter tokens) (Counter (bigrams tokens)) = Ok probs
    ∧ ∀ g, probs !! g
        = Counter (bigrams tokens) !! g ≫= λ count,
            (λ w1, if decide (0 < default 0 (Counter tokens !! w1))
                   then int_quot count (default 0 (Counter tokens !! w1))
                   else 0%Q)
              <$> g !! 0.
Proof.
  apply bigram_probs_Ok. intros g c (w1 & w2 & ->)%bigram_keys. done.
Qed.

Lemma build_tables_Ok tokens :
  ∃ bp t,
    NgramsTp.bigram_probs (Counter tokens) (Counter (bigrams tokens)) = Ok bp
    ∧ NgramsTp.build_tables tokens = Ok t
    ∧ NgramsTp.unigrams t = Counter tokens
    ∧ NgramsTp.bigram_freq t = Counter (bigrams tokens)
    ∧ NgramsTp.trigram_freq t = Counter (trigrams tokens)
    ∧ NgramsTp.quadrigram_freq t = Counter (ngrams tokens 4)
    ∧ NgramsTp.pentagram_freq t = Counter (ngrams tokens 5)
    ∧ NgramsTp.ngram_freqs t
      = <[5 := Counter (ngrams tokens 5)]>
          (<[4 := Counter (ngrams tokens 4)]>
             (<[3 := Counter (trigrams tokens)]>
                (<[2 := Counter (bigrams tokens)]>
                   (<[1 := kmap NgramsTp.tuple1 (Counter tokens)]> ∅))))
    ∧ NgramsTp.ngram_probs t
      = <[5 := NgramsTp.calculate_probabilities
                 (Counter (ngrams tokens 5)) (Counter (ngrams tokens 4))]>
          (<[4 := NgramsTp.calculate_probabilities
                    (Counter (ngrams tokens 4)) (Counter (trigrams tokens))]>
             (<[3 := NgramsTp.calculate_probabilities
                       (Counter (trigrams tokens)) (Counter (bigrams tokens))]>
                (<[2 := bp]>
                   (<[1 := kmap NgramsTp.tuple1
                             (NgramsTp.unigram_probs (Counter tokens))]> ∅)))).
Proof.
  destruct (bigram_probs_tokens tokens) as (bp & Hbp & _).
  exists bp. eexists. split; [done |].
  unfold NgramsTp.build_tables. rewrite Hbp. simpl.
  split; [reflexivity |]. simpl. done.
Qed.
End PolicyBFacts.

Section PolicyBRange.
Context `{Countable token}.
Implicit Types (nf pf : gmap (list token) nat) (g tokens : list token).

Lemma int_quot_unit_interval (a b : nat) :
  a ≤ b → 0 < b → (0 <= int_quot a b <= 1)%Q.
Proof.
  intros Hab Hb. split; [apply int_quot_nonneg | apply int_quot_le_1; lia].
Qed.

Lemma zero_unit_interval : (0 <= 0 <= 1)%Q.
Proof. split; by apply Z.leb_le. Qed.

Lemma calculate_probabilities_B_range nf pf :
  (∀ g c, nf !! g = Some c → 1 < length g →
          c ≤ default 0 (pf !! removelast g)) →
  ∀ g p, NgramsTp.calculate_probabilities nf pf !! g = Some p →
         (0 <= p <= 1)%Q.
Proof.
  intros Hdom g p. rewrite calculate_probabilities_B_lookup.
  destruct (nf !! g) as [c|] eqn:Hg; [| done]. simpl. intros [= <-].
  destruct (decide (1 < length g)) as [Hlen|Hlen].
  - destruct (decide _); [| apply zero_unit_interval].
    apply int_quot_unit_interval; [by apply Hdom | done].
  - destruct (decide _); [| apply zero_unit_interval].
    apply int_quot_unit_interval; [by eapply sum_values_lookup_le | done].
Qed.

Lemma ngrams_prefix_dominates tokens n g c :
  3 ≤ n →
  Counter (ngrams tokens n) !! g = Some c →
  c ≤ default 0 (Counter (ngrams tokens (n - 1)) !! removelast g).
Proof.
  intros Hn. rewrite !ngrams_build_ngrams by lia. intros Hg.
  destruct (counted_prefix_dominates tokens n g c) as (pc & -> & Hle);
    [lia | done | done].
Qed.

Lemma bigram_prefix_dominates tokens w1 w2 c :
  Counter (bigrams tokens) !! [w1; w2] = Some c →
  c ≤ default 0 (Counter tokens !! w1).
Proof.
  unfold bigrams. rewrite ngrams_build_ngrams by lia. intros Hg.
  destruct (counted_prefix_dominates tokens 2 _ c (le_n 2) Hg)
    as (pc & Hpc & Hle).
  simpl in Hpc. apply Counter_lookup_Some in Hpc as [-> Hpos].
  rewrite occ_unigram in Hpos, Hle.
  by rewrite (proj2 (Counter_lookup_Some tokens w1 _) (conj eq_refl Hpos)).
Qed.

#[local] Instance tuple1_inj : Inj (=) (=) (NgramsTp.tuple1 (token := token)).
Proof. by intros w w' [= ->]. Qed.

Lemma unigram_probs_range (unigrams : gmap token nat) w p :
  NgramsTp.unigram_probs unigrams !! w = Some p → (0 <= p <= 1)%Q.
Proof.
  rewrite unigram_probs_lookup.
  destruct (unigrams !! w) as [c|] eqn:Hw; [| done]. simpl. intros [= <-].
  destruct (decide _); [| apply zero_unit_interval].
  apply int_quot_unit_interval; [by eapply sum_values_lookup_le | done].
Qed.

Lemma build_tables_range tokens t n probs g p :
  NgramsTp.build_tables tokens = Ok t →
  NgramsTp.ngram_probs t !! n = Some probs →
  probs !! g = Some p →
  (0 <= p <= 1)%Q.
Proof.
  destruct (build_tables_Ok tokens)
    as (bp & t' & Hbp & Ht & _ & _ & _ & _ & _ & _ & Hprobs).
  rewrite Ht. intros [= <-]. rewrite Hprobs. clear Hprobs Ht.
  destruct (decide (n = 5)) as [->|N5];
    [rewrite lookup_insert_eq | rewrite lookup_insert_ne by done].
  { intros [= <-]. apply calculate_probabilities_B_range.
    intros g' c Hg' _. apply (ngrams_prefix_dominates tokens 5); [lia | done]. }
  destruct (decide (n = 4)) as [->|N4];
    [rewrite lookup_insert_eq | rewrite lookup_insert_ne by done].
  { intros [= <-]. apply calculate_probabilities_B_range.
    intros g' c Hg' _. apply (ngrams_prefix_dominates tokens 4); [lia | done]. }
  destruct (decide (n = 3)) as [->|N3];
    [rewrite lookup_insert_eq | rewrite lookup_insert_ne by done].
  { intros [= <-]. apply calculate_probabilities_B_range.
    intros g' c Hg' _. apply (ngrams_prefix_dominates tokens 3); [lia | done]. }
  destruct (decide (n = 2)) as [->|N2];
    [rewrite lookup_insert_eq | rewrite lookup_insert_ne by done].
  { intros [= <-].
    destruct (bigram_probs_tokens tokens) as (bp' & Hbp' & Hl).
    rewrite Hbp in Hbp'. injection Hbp' as <-. rewrite Hl.
    destruct (Counter (bigrams tokens) !! g) as [c|] eqn:Hg; [| done].
    destruct (bigram_keys _ _ _ Hg) as (w1 & w2 & ->). simpl. intros [= <-].
    destruct (decide _); [| apply zero_unit_interval].
    apply int_quot_unit_interval; [by eapply bigram_prefix_dominates | done]. }
  destruct (decide (n = 1)) as [->|N1];
    [rewrite lookup_insert_eq | rewrite lookup_insert_ne by done].
  { intros [= <-]. intros (w & -> & Hw)%lookup_kmap_Some; [| apply _].
    by eapply unigram_probs_range. }
  by rewrite lookup_empty.
Qed.
End PolicyBRange.

(** ** Policy B: relative frequencies *)

(** C2. Policy B gives a unigram of count [c] the quotient of [c] by the
    sum of all unigram counts (line 136 of [process_language], and the
    branch for one-token keys of [calculate_probabilities]); it gives a gram
    of two or more tokens with count [c] the quotient of [c] by the count of
    its prefix in the lower-order table, and exactly [0] when that count is
    0 or the prefix is absent; the bigram loop of [process_language] does the
    same with the count of the first word in the unigram distribution.  No
    call raises. *)
Theorem policyB_relative_frequency `{Countable token} :
  (∀ (unigrams : gmap token nat) w c,
     unigrams !! w = Some c → 0 < c →
     ∃ p, NgramsTp.unigram_probs unigrams !! w = Some p
       ∧ Q2R p = (INR c / INR (sum_values unigrams))%R)
  ∧ (∀ (ngram_freq prev_ngram_freq : gmap (list token) nat) g c,
     ngram_freq !! g = Some c → length g ≤ 1 → 0 < c →
     ∃ p, NgramsTp.calculate_probabilities ngram_freq prev_ngram_freq !! g = Some p
       ∧ Q2R p = (INR c / INR (sum_values ngram_freq))%R)
  ∧ (∀ (ngram_freq prev_ngram_freq : gmap (list token) nat) g c,
     ngram_freq !! g = Some c → 1 < length g →
     ∃ p, NgramsTp.calculate_probabilities ngram_freq prev_ngram_freq !! g = Some p
       ∧ (0 < default 0 (prev_ngram_freq !! removelast g) →
          Q2R p = (INR c / INR (default 0%nat (prev_ngram_freq !! removelast g)))%R)
       ∧ (default 0 (prev_ngram_freq !! removelast g) = 0 → p = 0%Q))
  ∧ (∀ (tokens : list token),
     ∃ probs,
       NgramsTp.bigram_probs (Counter tokens) (Counter (bigrams tokens)) = Ok probs
       ∧ ∀ g c, Counter (bigrams tokens) !! g = Some c →
           ∃ w1 p, g !! 0 = Some w1 ∧ probs !! g = Some p
             ∧ (0 < default 0 (Counter tokens !! w1) →
                Q2R p = (INR c / INR (default 0%nat (Counter tokens !! w1)))%R)
             ∧ (default 0 (Counter tokens !! w1) = 0 → p = 0%Q)).
Proof.
  split; [| split; [| split]].
  - intros unigrams w c Hw Hc.
    pose proof (sum_values_lookup_le _ _ _ Hw) as Hle.
    rewrite unigram_probs_lookup, Hw. simpl.
    destruct (decide _); [| lia].
    eexists. split; [done |]. apply Q2R_int_quot. lia.
  - intros nf pf g c Hg Hlen Hc.
    pose proof (sum_values_lookup_le _ _ _ Hg) as Hle.
    rewrite calculate_probabilities_B_lookup, Hg. simpl.
    destruct (decide (1 < length g)); [lia |].
    destruct (decide _); [| lia].
    eexists. split; [done |]. apply Q2R_int_quot. lia.
  - intros nf pf g c Hg Hlen.
    rewrite calculate_probabilities_B_lookup, Hg. simpl.
    destruct (decide (1 < length g)); [| lia].
    eexists. split; [done |].
    destruct (decide _) as [Hpos|Hzero].
    + split; [intros _; apply Q2R_int_quot; lia | lia].
    + split; [intros; lia | done].
  - intros tokens.
    destruct (bigram_probs_tokens tokens) as (probs & Hp & Hl).
    exists probs. split; [done |]. intros g c Hg.
    destruct (bigram_keys _ _ _ Hg) as (w1 & w2 & ->).
    rewrite Hl, Hg. simpl. eexists w1, _. split; [done |]. split; [done |].
    destruct (decide _) as [Hpos|Hzero].
    + split; [intros _; apply Q2R_int_quot; lia | lia].
    + split; [intros; lia | done].
Qed.

Lemma policyB_relative_frequency_witness :
  let tokens := ["a"; "b"; "a"; "b"; "c"] in
  (∃ p, NgramsTp.unigram_probs (Counter tokens) !! "a" = Some p
     ∧ Q2R p = (INR 2 / INR (sum_values (Counter tokens)))%R)
  ∧ (∃ p, NgramsTp.calculate_probabilities
            (Counter (Pipeline.build_ngrams tokens 1)) ∅ !! ["a"] = Some p
     ∧ Q2R p = (INR 2 / INR (sum_values (Counter (Pipeline.build_ngrams tokens 1))))%R)
  ∧ (∃ p, NgramsTp.calculate_probabilities
            (Counter (trigrams tokens)) (Counter (bigrams tokens))
            !! ["a"; "b"; "c"] = Some p
     ∧ (0 < default 0 (Counter (bigrams tokens) !! removelast ["a"; "b"; "c"]) →
        Q2R p = (INR 1 / INR (default 0%nat (Counter (bigrams tokens)
                                               !! removelast ["a"; "b"; "c"])))%R)
     ∧ (default 0 (Counter (bigrams tokens) !! removelast ["a"; "b"; "c"]) = 0 →
        p = 0%Q)).
Proof.
  intros tokens.
  destruct (policyB_relative_frequency (token := string))
    as (Huni & Hone & Hmany & Hbi).
  split; [| split].
  - apply Huni; [vm_compute; reflexivity | lia].
  - apply Hone; [vm_compute; reflexivity | simpl; lia | lia].
  - apply Hmany; [vm_compute; reflexivity | simpl; lia].
Defined.

Lemma build_tables_bigram_probs `{Countable token} (tokens : list token) :
  ∃ t bp,
    NgramsTp.build_tables tokens = Ok t
    ∧ NgramsTp.ngram_probs t !! 2 = Some bp
    ∧ ∀ g, bp !! g
        = Counter (bigrams tokens) !! g ≫= λ count,
            (λ w1, if decide (0 < default 0 (Counter tokens !! w1))
                   then int_quot count (default 0 (Counter tokens !! w1))
                   else 0%Q)
              <$> g !! 0.
Proof.
  destruct (build_tables_Ok tokens)
    as (bp & t & Hbp & Ht & _ & _ & _ & _ & _ & _ & Hprobs).
  destruct (bigram_probs_tokens tokens) as (bp' & Hbp' & Hl).
  rewrite Hbp in Hbp'. injection Hbp' as <-.
  exists t, bp. split; [done |]. split; [| done].
  rewrite Hprobs. do 3 (rewrite lookup_insert_ne by lia).
  apply lookup_insert_eq.
Qed.

(** C4. For every token sequence, [process_language] builds its tables
    without raising, it has a probability table for each order 1 to 5, and
    every probability in them lies in the closed interval [0, 1]. *)
Theorem policyB_range `{Countable token} (tokens : list token) :
  ∃ t, NgramsTp.build_tables tokens = Ok t
    ∧ (∀ n, 1 ≤ n ≤ 5 → is_Some (NgramsTp.ngram_probs t !! n))
    ∧ ∀ n probs g p,
        NgramsTp.ngram_probs t !! n = Some probs →
        probs !! g = Some p →
        (0 <= p <= 1)%Q.
Proof.
  destruct (build_tables_Ok tokens)
    as (bp & t & Hbp & Ht & _ & _ & _ & _ & _ & _ & Hprobs).
  exists t. split; [done |]. split.
  - intros n Hn. rewrite Hprobs.
    assert (n = 1 ∨ n = 2 ∨ n = 3 ∨ n = 4 ∨ n = 5) as Hcases by lia.
    destruct Hcases as [->|[->|[->|[->| ->]]]];
      repeat first [ rewrite lookup_insert_eq
                   | rewrite lookup_insert_ne by done ]; done.
  - intros n probs g p. by apply (build_tables_range tokens).
Qed.

Lemma policyB_range_witness :
  (0 <= 1 # 2 <= 1)%Q.
Proof.
  destruct (policyB_range ["a"; "b"; "a"; "b"; "c"]) as (t & Ht & _ & Hr).
  destruct (build_tables_bigram_probs ["a"; "b"; "a"; "b"; "c"])
    as (t' & bp & Ht' & Hbp & Hl).
  rewrite Ht in Ht'. injection Ht' as <-.
  apply (Hr 2 bp ["b"; "c"] (1 # 2)%Q Hbp).
  rewrite Hl. vm_compute. reflexivity.
Defined.

(** ** Empty input *)

Section EmptyInput.
Context `{Countable token}.

Lemma build_ngrams_nil (n : nat) :
  1 ≤ n → Pipeline.build_ngrams ([] : list token) n = [].
Proof.
  intros Hn. apply nil_length_inv. rewrite build_ngrams_length. simpl. lia.
Qed.

Lemma calculate_probabilities_B_empty (pf : gmap (list token) nat) :
  NgramsTp.calculate_probabilities ∅ pf = ∅.
Proof. apply map_imap_empty. Qed.

Lemma bigram_probs_empty (unigrams : gmap token nat) :
  NgramsTp.bigram_probs unigrams ∅ = Ok ∅.
Proof. unfold NgramsTp.bigram_probs. by rewrite map_fold_empty. Qed.
End EmptyInput.

(** C8. For the empty token sequence every count table of every order
    [n ≥ 1] is the empty map, in both pipelines; Policy A then returns the
    empty score table for each order 2 to 5 (no quotient is formed), and
    Policy B returns empty probability tables for each order 1 to 5.  No
    probability computation raises: on every token sequence the tables of
    [process_corpus] and of [process_language] are computed without an
    exception, and under Policy B an entry whose denominator is 0 is
    exactly [0]. *)
Theorem empty_tokens_safe `{Countable token} :
  (∀ n, 1 ≤ n →
     Counter (Pipeline.build_ngrams ([] : list token) n) = ∅
     ∧ Counter (ngrams ([] : list token) n) = ∅)
  ∧ Counter ([] : list token) = ∅
  ∧ (∀ n, 1 ≤ n ≤ 5 →
     Pipeline.count_grams ([] : list token) !! n = Some ∅)
  ∧ (∃ probabilities,
       Pipeline.estimate (Pipeline.count_grams ([] : list token)) = Ok probabilities
       ∧ ∀ n, 2 ≤ n ≤ 5 → probabilities !! n = Some ∅)
  ∧ (∃ t, NgramsTp.build_tables ([] : list token) = Ok t
       ∧ ∀ n, 1 ≤ n ≤ 5 →
           NgramsTp.ngram_freqs t !! n = Some ∅
           ∧ NgramsTp.ngram_probs t !! n = Some ∅)
  ∧ (∀ tokens : list token,
       (∃ probabilities,
          Pipeline.estimate (Pipeline.count_grams tokens) = Ok probabilities)
       ∧ (∃ t, NgramsTp.build_tables tokens = Ok t))
  ∧ (∀ (ngram_freq prev_ngram_freq : gmap (list token) nat) g c,
       ngram_freq !! g = Some c →
       (if decide (1 < length g)
        then default 0 (prev_ngram_freq !! removelast g)
        else sum_values ngram_freq) = 0 →
       NgramsTp.calculate_probabilities ngram_freq prev_ngram_freq !! g
       = Some 0%Q)
  ∧ (∀ (unigrams : gmap token nat) w c,
       unigrams !! w = Some c → sum_values unigrams = 0 →
       NgramsTp.unigram_probs unigrams !! w = Some 0%Q)
  ∧ (∀ lower_counts : gmap (list token) nat,
       Pipeline.calculate_probabilities ∅ lower_counts = Ok ∅).
Proof.
  split; [| split; [| split; [| split; [| split; [| split; [| split; [| split]]]]]]].
  - intros n Hn. rewrite build_ngrams_nil by done. by destruct n.
  - done.
  - intros n Hn. rewrite count_grams_lookup by done.
    by rewrite build_ngrams_nil by lia.
  - destruct (estimate_Ok ([] : list token)) as (probabilities & He & Hn).
    exists probabilities. split; [done |]. intros n Hr.
    destruct (Hn n Hr) as (probs & -> & Hcalc).
    rewrite build_ngrams_nil in Hcalc by lia.
    change (Counter []) with (∅ : gmap (list token) nat) in Hcalc.
    rewrite calculate_probabilities_empty in Hcalc. by injection Hcalc as <-.
  - destruct (build_tables_Ok ([] : list token))
      as (bp & t & Hbp & Ht & _ & _ & _ & _ & _ & Hfreqs & Hprobs).
    exists t. split; [done |]. intros n Hn.
    rewrite Hfreqs, Hprobs.
    change (Counter (bigrams [])) with (∅ : gmap (list token) nat) in *.
    change (Counter (trigrams [])) with (∅ : gmap (list token) nat).
    change (Counter (ngrams [] 4)) with (∅ : gmap (list token) nat).
    change (Counter (ngrams [] 5)) with (∅ : gmap (list token) nat).
    change (Counter []) with (∅ : gmap token nat) in *.
    rewrite bigram_probs_empty in Hbp. injection Hbp as <-.
    rewrite !calculate_probabilities_B_empty.
    unfold NgramsTp.unigram_probs. rewrite fmap_empty, !kmap_empty.
    assert (n = 1 ∨ n = 2 ∨ n = 3 ∨ n = 4 ∨ n = 5) as Hcases by lia.
    destruct Hcases as [->|[->|[->|[->| ->]]]];
      (split; repeat first [ rewrite lookup_insert_eq
                           | rewrite lookup_insert_ne by done ]; done).
  - intros tokens. split.
    + destruct (estimate_Ok tokens) as (probabilities & He & _). by eexists.
    + destruct (build_tables_Ok tokens) as (bp & t & _ & Ht & _). by eexists.
  - intros nf pf g c Hg Hz.
    rewrite calculate_probabilities_B_lookup, Hg. simpl. f_equal.
    destruct (decide (1 < length g)); destruct (decide _); done || lia.
  - intros unigrams w c Hw Hz.
    rewrite unigram_probs_lookup, Hw. simpl. f_equal.
    destruct (decide _); done || lia.
  - apply calculate_probabilities_empty.
Qed.

Lemma empty_tokens_safe_witness :
  Counter (Pipeline.build_ngrams ([] : list string) 3) = ∅
  ∧ Pipeline.count_grams ([] : list string) !! 4 = Some ∅
  ∧ NgramsTp.calculate_probabilities
      ({[ ["a"; "b"] := 1 ]} : gmap (list string) nat) ∅ !! ["a"; "b"]
    = Some 0%Q.
Proof.
  destruct (empty_tokens_safe (token := string))
    as (Hgrams & _ & Hcounts & _ & _ & _ & Hzero & _).
  split; [| split].
  - apply (Hgrams 3). lia.
  - apply Hcounts. lia.
  - apply (Hzero _ _ _ 1); vm_compute; reflexivity.
Defined.

(** ** The substitution engine *)

Section Engine.
Variable m : matcher.

Lemma re_sub_from_skip (k : nat) (text : pystr) :
  re_sub_from m k text = re_sub_from m 0 (drop k text).
Proof.
  revert k. induction text as [|c rest IH]; intros [|k]; try done.
  simpl. apply IH.
Qed.

Lemma re_sub_space_cons (c : char) (rest : pystr) :
  re_sub_space m (c :: rest)
  = match m (c :: rest) with
    | Some (S k) => space :: re_sub_space m (drop k rest)
    | _ => c :: re_sub_space m rest
    end.
Proof.
  unfold re_sub_space. simpl.
  destruct (m (c :: rest)) as [[|k]|]; try done.
  by rewrite re_sub_from_skip.
Qed.

(** Where the pattern matches nowhere, the text is unchanged. *)
Lemma re_sub_space_no_match (P : char → Prop) (text : pystr) :
  (∀ c rest, P c → m (c :: rest) = None) →
  Forall P text →
  re_sub_space m text = text.
Proof.
  intros Hm. induction 1 as [|c rest Hc Hrest IH]; [done |].
  by rewrite re_sub_space_cons, (Hm c rest Hc), IH.
Qed.
End Engine.

(** ** Characters *)

Lemma kept_not_lt (c : char) : in_kept_class c = true → c ≠ 0x3C%N.
Proof. intros Hc ->. by vm_compute in Hc. Qed.

Lemma kept_not_lbrace (c : char) : in_kept_class c = true → c ≠ 0x7B%N.
Proof. intros Hc ->. by vm_compute in Hc. Qed.

Lemma kept_not_lbracket (c : char) : in_kept_class c = true → c ≠ 0x5B%N.
Proof. intros Hc ->. by vm_compute in Hc. Qed.

Lemma is_space_kept (c : char) : is_space c = true → in_kept_class c = true.
Proof.
  intros Hc. unfold in_kept_class. rewrite Hc. by rewrite !orb_true_r.
Qed.

Lemma is_space_space : is_space space = true.
Proof. reflexivity. Qed.

Lemma starts_with_cons (a : char) (p : pystr) (c : char) (s : pystr) :
  starts_with (a :: p) (c :: s) = (a =? c)%N && starts_with p s.
Proof. reflexivity. Qed.

Lemma starts_with_mismatch (a : char) (p : pystr) (c : char) (s : pystr) :
  c ≠ a → starts_with (a :: p) (c :: s) = false.
Proof.
  intros Hc. rewrite starts_with_cons.
  by destruct (N.eqb_spec a c) as [<-|].
Qed.

Lemma m_tag_kept (c : char) (rest : pystr) :
  in_kept_class c = true → m_tag (c :: rest) = None.
Proof.
  intros Hc%kept_not_lt. unfold m_tag.
  by destruct (N.eqb_spec c 0x3C).
Qed.

Lemma m_template_kept (c : char) (rest : pystr) :
  in_kept_class c = true → m_template (c :: rest) = None.
Proof.
  intros Hc%kept_not_lbrace. unfold m_template.
  change (lit "{{") with [0x7B; 0x7B]%N.
  by rewrite starts_with_mismatch.
Qed.

Lemma m_wikilink_kept (c : char) (rest : pystr) :
  in_kept_class c = true → m_wikilink (c :: rest) = None.
Proof.
  intros Hc%kept_not_lbracket. unfold m_wikilink.
  change (lit "[[") with [0x5B; 0x5B]%N.
  by rewrite starts_with_mismatch.
Qed.

Lemma m_extlink_kept (c : char) (rest : pystr) :
  in_kept_class c = true → m_extlink (c :: rest) = None.
Proof.
  intros Hc%kept_not_lbracket. unfold m_extlink.
  change (lit "[http") with [0x5B; 0x68; 0x74; 0x74; 0x70]%N.
  by rewrite starts_with_mismatch.
Qed.

Lemma m_disallowed_kept (c : char) (rest : pystr) :
  in_kept_class c = true → m_disallowed (c :: rest) = None.
Proof. intros Hc. unfold m_disallowed. by rewrite Hc. Qed.

(** ** The last three steps of [clean_text] *)

(** No two adjacent whitespace characters. *)
Fixpoint single_spaced (s : pystr) : Prop :=
  match s with
  | [] => True
  | a :: tl =>
      match tl with
      | [] => True
      | b :: _ => ¬ (is_space a = true ∧ is_space b = true)
      end ∧ single_spaced tl
  end.

(** The shape of a cleaned text: kept characters only, whitespace only as
    single U+0020 between two other characters. *)
Definition normalized (s : pystr) : Prop :=
  Forall (λ c, in_kept_class c = true) s
  ∧ Forall (λ c, is_space c = true → c = space) s
  ∧ single_spaced s
  ∧ (∀ c r, s = c :: r → is_space c = false)
  ∧ (∀ init c, s = init ++ [c] → is_space c = false).

Lemma re_sub_from_Forall (m : matcher) (P : char → Prop) (k : nat) (text : pystr) :
  P space → Forall P text → Forall P (re_sub_from m k text).
Proof.
  intros Hsp Htext. revert k.
  induction Htext as [|c rest Hc Hrest IH]; intros k; [constructor |].
  simpl. destruct k as [|k]; [| apply IH].
  destruct (m (c :: rest)) as [[|j]|]; constructor; auto.
Qed.

Lemma re_sub_disallowed_kept (text : pystr) :
  Forall (λ c, in_kept_class c = true) (re_sub_space m_disallowed text).
Proof.
  induction text as [|c rest IH]; [constructor |].
  rewrite re_sub_space_cons. unfold m_disallowed.
  destruct (in_kept_class c) eqn:Hc; constructor; done.
Qed.

Lemma re_sub_spaces_cons_space (c : char) (rest : pystr) :
  is_space c = true →
  re_sub_space m_spaces (c :: rest)
  = space :: re_sub_space m_spaces (drop (run_length is_space rest) rest).
Proof.
  intros Hc. rewrite re_sub_space_cons. unfold m_spaces. simpl run_length.
  by rewrite Hc.
Qed.

Lemma re_sub_spaces_cons_other (c : char) (rest : pystr) :
  is_space c = false →
  re_sub_space m_spaces (c :: rest) = c :: re_sub_space m_spaces rest.
Proof.
  intros Hc. rewrite re_sub_space_cons. unfold m_spaces. simpl run_length.
  by rewrite Hc.
Qed.

Lemma drop_run_length_head (p : char → bool) (s : pystr) (d : char) (r : pystr) :
  drop (run_length p s) s = d :: r → p d = false.
Proof.
  induction s as [|c s IH]; [done |]. simpl.
  destruct (p c) eqn:Hc; [exact IH |].
  simpl. by intros [= <- _].
Qed.

Lemma re_sub_spaces_only_space (k : nat) (text : pystr) :
  Forall (λ c, is_space c = true → c = space) (re_sub_from m_spaces k text).
Proof.
  revert k. induction text as [|c rest IH]; intros k; [constructor |].
  simpl. destruct k as [|k]; [| apply IH].
  unfold m_spaces. simpl run_length.
  destruct (is_space c) eqn:Hc; constructor; auto.
  by rewrite Hc.
Qed.

Lemma single_spaced_cons (a : char) (s : pystr) :
  (∀ b s', s = b :: s' → ¬ (is_space a = true ∧ is_space b = true)) →
  single_spaced s → single_spaced (a :: s).
Proof. intros Hhead Hs. destruct s as [|b s']; simpl; split; eauto. Qed.

Lemma single_spaced_tail (a : char) (s : pystr) :
  single_spaced (a :: s) → single_spaced s.
Proof. simpl. by intros [_ ?]. Qed.

Lemma re_sub_spaces_single_spaced (text : pystr) :
  single_spaced (re_sub_space m_spaces text).
Proof.
  remember (length text) as n eqn:Hn.
  assert (length text ≤ n) as Hle by lia. clear Hn.
  revert text Hle. induction n as [|n IH]; intros text Hle.
  { destruct text; [exact I | simpl in Hle; lia]. }
  destruct text as [|c rest]; [exact I |]. simpl in Hle.
  destruct (is_space c) eqn:Hc.
  - rewrite re_sub_spaces_cons_space by done.
    apply single_spaced_cons.
    + intros b s' Hout [_ Hb].
      destruct (drop (run_length is_space rest) rest) as [|d r] eqn:Hd;
        [done |].
      pose proof (drop_run_length_head _ _ _ _ Hd) as Hnd.
      rewrite re_sub_spaces_cons_other in Hout by done.
      injection Hout as <- _. congruence.
    + apply IH. rewrite length_drop. lia.
  - rewrite re_sub_spaces_cons_other by done.
    apply single_spaced_cons; [| apply IH; lia].
    intros b s' _ [Ha _]. congruence.
Qed.

(** On a text whose whitespace is already single U+0020 characters the
    collapse changes nothing. *)
Lemma re_sub_spaces_fixed (s : pystr) :
  Forall (λ c, is_space c = true → c = space) s →
  single_spaced s →
  re_sub_space m_spaces s = s.
Proof.
  induction 1 as [|c rest Hc Hrest IH]; intros Hss; [done |].
  pose proof (single_spaced_tail _ _ Hss) as Htl.
  destruct (is_space c) eqn:Hsp.
  - rewrite re_sub_spaces_cons_space by done.
    rewrite (Hc eq_refl).
    assert (run_length is_space rest = 0) as ->.
    { destruct rest as [|b rest']; [done |]. simpl.
      destruct (is_space b) eqn:Hb; [| done].
      destruct Hss as [Hab _]. by destruct Hab. }
    rewrite drop_0. by rewrite IH.
  - rewrite re_sub_spaces_cons_other by done. by rewrite IH.
Qed.

(** ** Stripping *)

Lemma lstrip_suffix (s : pystr) : ∃ pre, s = pre ++ lstrip s.
Proof.
  induction s as [|c s [pre IH]]; [by exists [] |]. simpl.
  destruct (is_space c); [| by exists []].
  exists (c :: pre). simpl. by f_equal.
Qed.

Lemma lstrip_head (s : pystr) (d : char) (r : pystr) :
  lstrip s = d :: r → is_space d = false.
Proof.
  induction s as [|c s IH]; [done |]. simpl.
  destruct (is_space c) eqn:Hc; [exact IH |]. by intros [= <- _].
Qed.

Lemma lstrip_fixed (s : pystr) :
  (∀ c r, s = c :: r → is_space c = false) → lstrip s = s.
Proof.
  intros Hh. destruct s as [|c r]; [done |]. simpl.
  by rewrite (Hh c r eq_refl).
Qed.

Lemma rstrip_prefix (s : pystr) : ∃ suf, s = rstrip s ++ suf.
Proof.
  unfold rstrip. destruct (lstrip_suffix (rev s)) as [pre Hpre].
  exists (rev pre). rewrite <- rev_app_distr, <- Hpre.
  by rewrite rev_involutive.
Qed.

Lemma rstrip_last (s init : pystr) (c : char) :
  rstrip s = init ++ [c] → is_space c = false.
Proof.
  unfold rstrip. intros Hr.
  apply (f_equal (@rev N)) in Hr.
  rewrite rev_involutive, rev_app_distr in Hr. simpl in Hr.
  by apply lstrip_head in Hr.
Qed.

Lemma rstrip_fixed (s : pystr) :
  (∀ init c, s = init ++ [c] → is_space c = false) → rstrip s = s.
Proof.
  intros Hl. unfold rstrip. rewrite lstrip_fixed; [apply rev_involutive |].
  intros c r Hr. apply (Hl (rev r) c).
  apply (f_equal (@rev N)) in Hr. rewrite rev_involutive in Hr.
  by rewrite Hr.
Qed.

Lemma single_spaced_app_l (a b : pystr) :
  single_spaced (a ++ b) → single_spaced a.
Proof.
  induction a as [|x a IH]; [done |]. simpl.
  intros [Hx Hrest]. split; [| by apply IH].
  destruct a as [|y a]; [done |]. exact Hx.
Qed.

Lemma single_spaced_app_r (a b : pystr) :
  single_spaced (a ++ b) → single_spaced b.
Proof.
  induction a as [|x a IH]; [done |]. simpl. intros [_ Hrest]. by apply IH.
Qed.

Lemma strip_infix (s : pystr) : ∃ pre suf, s = pre ++ strip s ++ suf.
Proof.
  unfold strip. destruct (lstrip_suffix s) as [pre Hpre].
  destruct (rstrip_prefix (lstrip s)) as [suf Hsuf].
  exists pre, suf. by rewrite <- Hsuf.
Qed.

Lemma strip_head (s : pystr) (c : char) (r : pystr) :
  strip s = c :: r → is_space c = false.
Proof.
  unfold strip. intros Hs.
  destruct (rstrip_prefix (lstrip s)) as [suf Hsuf].
  rewrite Hs in Hsuf. simpl in Hsuf. by apply lstrip_head in Hsuf.
Qed.

Lemma strip_last (s init : pystr) (c : char) :
  strip s = init ++ [c] → is_space c = false.
Proof. unfold strip. apply rstrip_last. Qed.

Lemma strip_fixed (s : pystr) :
  (∀ c r, s = c :: r → is_space c = false) →
  (∀ init c, s = init ++ [c] → is_space c = false) →
  strip s = s.
Proof.
  intros Hh Hl. unfold strip. rewrite lstrip_fixed by done.
  by apply rstrip_fixed.
Qed.

(** ** Cleaning *)

Lemma clean_text_normalized (text : pystr) :
  normalized (Pipeline.clean_text text).
Proof.
  unfold Pipeline.clean_text.
  set (t5 := re_sub_space m_disallowed _).
  set (t6 := re_sub_space m_spaces t5).
  assert (Forall (λ c, in_kept_class c = true) t6) as Hkept.
  { apply re_sub_from_Forall; [done | apply re_sub_disallowed_kept]. }
  pose proof (re_sub_spaces_only_space 0 t5) as Honly.
  pose proof (re_sub_spaces_single_spaced t5) as Hss.
  fold (re_sub_space m_spaces t5) in Honly. fold t6 in Honly, Hss.
  destruct (strip_infix t6) as (pre & suf & Ht6).
  rewrite Ht6 in Hkept, Honly, Hss.
  apply Forall_app in Hkept as [_ [Hkept _]%Forall_app].
  apply Forall_app in Honly as [_ [Honly _]%Forall_app].
  apply single_spaced_app_r, single_spaced_app_l in Hss.
  repeat split; try done.
  - apply strip_head.
  - apply strip_last.
Qed.

Lemma clean_text_fixed (s : pystr) :
  normalized s → Pipeline.clean_text s = s.
Proof.
  intros (Hkept & Honly & Hss & Hhead & Hlast).
  unfold Pipeline.clean_text.
  rewrite (re_sub_space_no_match m_tag _ s m_tag_kept Hkept).
  rewrite (re_sub_space_no_match m_template _ s m_template_kept Hkept).
  rewrite (re_sub_space_no_match m_wikilink _ s m_wikilink_kept Hkept).
  rewrite (re_sub_space_no_match m_extlink _ s m_extlink_kept Hkept).
  rewrite (re_sub_space_no_match m_disallowed _ s m_disallowed_kept Hkept).
  rewrite re_sub_spaces_fixed by done.
  by apply strip_fixed.
Qed.

(** C7. Every character of [clean_text(text)] belongs to the class kept by
    line 13 (ASCII letters and digits, U+0600-U+06FF, U+2D30-U+2D7F, the two
    quote marks, the half ring, underscore, hyphen, whitespace); the only
    whitespace character left is U+0020; no two consecutive characters of
    the output are whitespace; and the output neither starts nor ends with
    whitespace. *)
Theorem clean_text_charset (text : pystr) :
  Forall (λ c, in_kept_class c = true) (Pipeline.clean_text text)
  ∧ Forall (λ c, is_space c = true → c = space) (Pipeline.clean_text text)
  ∧ (∀ i a b,
       Pipeline.clean_text text !! i = Some a →
       Pipeline.clean_text text !! S i = Some b →
       ¬ (is_space a = true ∧ is_space b = true))
  ∧ (∀ c, head (Pipeline.clean_text text) = Some c → is_space c = false)
  ∧ (∀ c, last (Pipeline.clean_text text) = Some c → is_space c = false).
Proof.
  destruct (clean_text_normalized text) as (Hkept & Honly & Hss & Hhead & Hlast).
  split; [done |]. split; [done |]. split; [| split].
  - clear Hkept Honly Hhead Hlast. revert Hss.
    generalize (Pipeline.clean_text text).
    intros s Hss. induction s as [|x s IH]; intros i a b Ha Hb; [done |].
    destruct i as [|i].
    + simpl in Ha, Hb. injection Ha as ->.
      destruct s as [|y s]; [done |]. simpl in Hb. injection Hb as ->.
      by destruct Hss as [Hxy _].
    + apply (IH (single_spaced_tail _ _ Hss) i); done.
  - intros c (r & Hr)%head_Some. by apply (Hhead c r).
  - intros c (init & Hi)%last_Some. by apply (Hlast init c).
Qed.

Lemma clean_text_charset_witness :
  let out := Pipeline.clean_text (lit "<b>a</b>  b ") in
  ¬ (is_space 0x61%N = true ∧ is_space 0x20%N = true)
  ∧ is_space 0x61%N = false.
Proof.
  intros out.
  destruct (clean_text_charset (lit "<b>a</b>  b ")) as (_ & _ & Hrun & Hhead & _).
  split.
  - apply (Hrun 0); vm_compute; reflexivity.
  - apply Hhead. vm_compute. reflexivity.
Defined.

(** C5. [clean_text] is idempotent: cleaning a cleaned text returns it
    unchanged. *)
Theorem clean_text_idempotent (x : pystr) :
  Pipeline.clean_text (Pipeline.clean_text x) = Pipeline.clean_text x.
Proof. apply clean_text_fixed, clean_text_normalized. Qed.

(** ** Missing input files *)

Section Runs.
Variable lower : pystr → pystr.
Variable is_word : char → bool.
Implicit Types (fs : gmap string pystr) (lang file_path : string).

Lemma process_language_Ok fs lang file_path :
  snd (NgramsTp.process_language lower is_word fs lang file_path) = Ok ().
Proof.
  unfold NgramsTp.process_language.
  destruct (NgramsTp.read_sentences_file fs file_path) as [warned sentences].
  destruct sentences as [|s sentences]; [done |].
  destruct (build_tables_Ok
              (NgramsTp.process_text_to_tokens lower is_word (s :: sentences)))
    as (bp & t & _ & Ht & _).
  by rewrite Ht.
Qed.

Lemma process_language_missing fs lang file_path :
  fs !! file_path = None →
  NgramsTp.process_language lower is_word fs lang file_path
  = ([Stdout (nl +:+ "Processing " +:+ lang +:+ "...");
      Stdout ("Warning: File not found: " +:+ file_path);
      Stdout ("No sentences found for " +:+ lang)], Ok ()).
Proof.
  intros Hf. unfold NgramsTp.process_language, NgramsTp.read_sentences_file.
  by rewrite Hf.
Qed.

Lemma main_loop_Ok fs (file_paths : list (string * string)) :
  snd (NgramsTp.main_loop lower is_word fs file_paths) = Ok ().
Proof.
  induction file_paths as [|[lang file_path] others IH]; [done |]. simpl.
  destruct (fs !! file_path) as [text|].
  - pose proof (process_language_Ok fs lang file_path) as Hp.
    destruct (NgramsTp.process_language lower is_word fs lang file_path)
      as [out r]. simpl in Hp. subst r.
    by destruct (NgramsTp.main_loop lower is_word fs others).
  - by destruct (NgramsTp.main_loop lower is_word fs others).
Qed.

Lemma main_loop_missing fs (before after : list (string * string))
    lang file_path :
  fs !! file_path = None →
  ∃ out_before,
    fst (NgramsTp.main_loop lower is_word fs before)
    = out_before ++ [Stdout (nl +:+ "All processing complete!")]
    ∧ NgramsTp.main_loop lower is_word fs (before ++ (lang, file_path) :: after)
      = (out_before
           ++ [Stdout ("Warning: File not found: " +:+ file_path)]
           ++ fst (NgramsTp.main_loop lower is_word fs after),
         Ok ()).
Proof.
  intros Hf. induction before as [|[l p] before (out_b & Hb & IH)].
  - exists []. split; [done |]. simpl. rewrite Hf.
    pose proof (main_loop_Ok fs after) as Ha.
    destruct (NgramsTp.main_loop lower is_word fs after) as [out' r'].
    simpl in Ha. by subst r'.
  - simpl. rewrite IH.
    destruct (fs !! p) as [text|].
    + pose proof (process_language_Ok fs l p) as Hp.
      destruct (NgramsTp.process_language lower is_word fs l p) as [out r].
      simpl in Hp. subst r.
      exists (out ++ out_b). split.
      * destruct (NgramsTp.main_loop lower is_word fs before) as [o r].
        simpl in Hb |- *. by rewrite Hb, app_assoc.
      * by rewrite <- app_assoc.
    + exists (Stdout ("Warning: File not found: " +:+ p) :: out_b). split.
      * destruct (NgramsTp.main_loop lower is_word fs before) as [o r].
        simpl in Hb |- *. by rewrite Hb.
      * done.
Qed.

Lemma process_corpus_missing fs (input_file output_prefix : string) :
  fs !! input_file = None →
  Pipeline.process_corpus lower fs input_file output_prefix
  = ([], Raise FileNotFoundError).
Proof. intros Hf. unfold Pipeline.process_corpus. by rewrite Hf. Qed.
End Runs.

(** C9, as the source has it.  In the run of [ngrams_tp.py] over any list
    of configured inputs, an input file that does not exist adds exactly one
    line to the output, the warning that names it; no directory is created
    and no artifact is written for it; the inputs configured after it are
    processed as in a run of their own, and the run ends without an
    exception.  [process_language] itself, called on a missing file, prints
    the warning of [read_sentences_file], writes nothing and returns.
    [process_corpus] of [pipeline.py] has no such handling: on a missing
    input file it raises [FileNotFoundError] before it prints or writes
    anything. *)
Theorem missing_file_skipped
    (lower : pystr → pystr) (is_word : char → bool) (fs : gmap string pystr) :
  (∀ file_paths, snd (NgramsTp.main_loop lower is_word fs file_paths) = Ok ())
  ∧ (∀ before after lang file_path,
       fs !! file_path = None →
       ∃ out_before,
         fst (NgramsTp.main_loop lower is_word fs before)
         = out_before ++ [Stdout (nl +:+ "All processing complete!")]
         ∧ NgramsTp.main_loop lower is_word fs
             (before ++ (lang, file_path) :: after)
           = (out_before
                ++ [Stdout ("Warning: File not found: " +:+ file_path)]
                ++ fst (NgramsTp.main_loop lower is_word fs after),
              Ok ()))
  ∧ (∀ lang file_path,
       fs !! file_path = None →
       NgramsTp.process_language lower is_word fs lang file_path
       = ([Stdout (nl +:+ "Processing " +:+ lang +:+ "...");
           Stdout ("Warning: File not found: " +:+ file_path);
           Stdout ("No sentences found for " +:+ lang)], Ok ()))
  ∧ (∀ input_file output_prefix,
       fs !! input_file = None →
       Pipeline.process_corpus lower fs input_file output_prefix
       = ([], Raise FileNotFoundError)).
Proof.
  split; [| split; [| split]].
  - apply main_loop_Ok.
  - intros before after lang file_path. apply main_loop_missing.
  - apply process_language_missing.
  - apply process_corpus_missing.
Qed.

Lemma missing_file_skipped_witness :
  let fs : gmap string pystr := {[ "b.txt" := lit "1	a b a b c" ]} in
  let id_lower : pystr → pystr := λ s, s in
  let ascii_word : char → bool := λ c, (0x61 <=? c)%N && (c <=? 0x7A)%N in
  (∃ out_before,
     fst (NgramsTp.main_loop id_lower ascii_word fs [])
     = out_before ++ [Stdout (nl +:+ "All processing complete!")]
     ∧ NgramsTp.main_loop id_lower ascii_word fs
         ([] ++ ("x", "a.txt") :: [("y", "b.txt")])
       = (out_before
            ++ [Stdout ("Warning: File not found: " +:+ "a.txt")]
            ++ fst (NgramsTp.main_loop id_lower ascii_word fs [("y", "b.txt")]),
          Ok ()))
  ∧ Pipeline.process_corpus id_lower fs "a.txt" "out"
    = ([], Raise FileNotFoundError).
Proof.
  intros fs id_lower ascii_word.
  destruct (missing_file_skipped id_lower ascii_word fs)
    as (_ & Hskip & _ & Hcorpus).
  split.
  - apply Hskip. vm_compute. reflexivity.
  - apply Hcorpus. vm_compute. reflexivity.
Defined.

(** C9, as the specification states it, fails for [pipeline.py]: when its
    input file is missing the run ends with [FileNotFoundError]; no warning
    is printed. *)
Lemma pipeline_missing_file_aborts :
  Pipeline.main (λ s, s) ∅ = ([], Raise FileNotFoundError).
Proof. reflexivity. Qed.

(** * Further properties of the tables *)

Section TableFacts.
Context `{Countable K}.
Implicit Types (l : list K) (d : gmap K nat).



Lemma sum_values_Counter_length l : sum_values (Counter l) = length l.
Proof. apply sum_values_Counter. Qed.

End TableFacts.

(** X1. In every count table of [process_corpus] the counts add up to the
    number of grams of that order, [max(0, L - n + 1)]; every count is the
    number of occurrences of its gram among the windows and is at least 1,
    and a sequence of tokens that is no window has no entry. *)
Theorem counts_sum_to_gram_total `{Countable token}
    (tokens : list token) (n : nat) :
  1 ≤ n ≤ 5 →
  ∃ table,
    Pipeline.count_grams tokens !! n = Some table
    ∧ Z.of_nat (sum_values table)
      = Z.max 0 (Z.of_nat (length tokens) - Z.of_nat n + 1)
    ∧ (∀ g c, table !! g = Some c →
         1 ≤ c ∧ c = occ g (Pipeline.build_ngrams tokens n))
    ∧ (∀ g, g ∉ Pipeline.build_ngrams tokens n → table !! g = None).
Proof.
  intros Hn. exists (Counter (Pipeline.build_ngrams tokens n)).
  split; [by apply count_grams_lookup |]. split; [| split].
  - rewrite sum_values_Counter_length, build_ngrams_length. lia.
  - intros g c [-> Hc]%Counter_lookup_Some. split; [lia | done].
  - intros g Hg. by apply Counter_lookup_None.
Qed.

Lemma counts_sum_to_gram_total_witness :
  ∃ table,
    Pipeline.count_grams ["a"; "b"; "a"; "b"; "c"] !! 2 = Some table
    ∧ Z.of_nat (sum_values table) = Z.max 0 (5 - 2 + 1)
    ∧ (∀ g c, table !! g = Some c →
         1 ≤ c ∧ c = occ g (Pipeline.build_ngrams ["a"; "b"; "a"; "b"; "c"] 2))
    ∧ (∀ g, g ∉ Pipeline.build_ngrams ["a"; "b"; "a"; "b"; "c"] 2 →
         table !! g = None).
Proof. apply (counts_sum_to_gram_total ["a"; "b"; "a"; "b"; "c"] 2). lia. Defined.

(** X2. Policy A fails exactly when it is given grams to score and an
    empty lower-order table, and then with [ZeroDivisionError]; whenever it
    returns, the score table has exactly the keys of the gram table. *)
Theorem policyA_raises_iff `{Countable token}
    (ngram_counts lower_counts : gmap (list token) nat) :
  (∀ e, Pipeline.calculate_probabilities ngram_counts lower_counts = Raise e
        ↔ e = ZeroDivisionError ∧ ngram_counts ≠ ∅ ∧ lower_counts = ∅)
  ∧ (∀ probs,
       Pipeline.calculate_probabilities ngram_counts lower_counts = Ok probs →
       dom probs = dom ngram_counts).
Proof.
  destruct (decide (lower_counts = ∅)) as [->|Hlc].
  - destruct (decide (ngram_counts = ∅)) as [->|Hnc].
    + rewrite calculate_probabilities_empty. split.
      * intros e. split; [done | by intros (_ & ? & _)].
      * by intros probs [= <-].
    + rewrite calculate_probabilities_no_lower by done. split.
      * intros e. split; [by intros [= <-] | by intros (-> & _)].
      * done.
  - destruct (calculate_probabilities_Ok ngram_counts lower_counts Hlc)
      as (probs & -> & Hl). split.
    + intros e. split; [done | by intros (_ & _ & ?)].
    + intros ? [= <-]. apply set_eq. intros g.
      by rewrite !elem_of_dom, Hl, fmap_is_Some.
Qed.

Lemma policyA_raises_iff_witness :
  let ngram_counts : gmap (list string) nat := {[ ["a"; "b"] := 1 ]} in
  (∃ probs,
     Pipeline.calculate_probabilities ngram_counts {[ ["c"] := 1 ]} = Ok probs
     ∧ dom probs = dom ngram_counts)
  ∧ ZeroDivisionError = ZeroDivisionError
    ∧ ngram_counts ≠ ∅
    ∧ (∅ : gmap (list string) nat) = ∅.
Proof.
  intros ngram_counts. split.
  - destruct (calculate_probabilities_Ok ngram_counts {[ ["c"] := 1 ]})
      as (probs & Hp & _).
    { apply map_size_non_empty_iff. by rewrite map_size_singleton. }
    exists probs. split; [done |].
    by apply (proj2 (policyA_raises_iff ngram_counts {[ ["c"] := 1 ]})).
  - apply (proj1 (policyA_raises_iff ngram_counts ∅)).
    apply calculate_probabilities_no_lower. unfold ngram_counts.
    apply map_size_non_empty_iff. by rewrite map_size_singleton.
Defined.




(** ** The tables of [process_language] *)

Section LanguageTables.
Context `{Countable token}.
Implicit Types (tokens g : list token).


Lemma Counter_unigrams tokens :
  Counter (Pipeline.build_ngrams tokens 1) = kmap NgramsTp.tuple1 (Counter tokens).
Proof.
  apply map_eq. intros g.
  destruct (Counter (Pipeline.build_ngrams tokens 1) !! g) as [c|] eqn:Hg.
  - pose proof Hg as [-> Hc]%Counter_lookup_Some.
    assert (g ∈ Pipeline.build_ngrams tokens 1) as Hin
      by (by apply occ_pos_elem_of).
    apply build_ngrams_gram_length in Hin.
    destruct g as [|w [|]]; try done.
    symmetry. apply lookup_kmap_Some; [apply _ |].
    exists w. split; [done |].
    rewrite occ_unigram in Hc |- *. by apply Counter_lookup_Some.
  - symmetry. apply lookup_kmap_None; [apply _ |].
    intros w ->. unfold NgramsTp.tuple1 in Hg.
    apply Counter_lookup_None in Hg.
    apply Counter_lookup_None. intros Hw. apply Hg.
    apply occ_pos_elem_of. rewrite occ_unigram. by apply occ_pos_elem_of.
Qed.
End LanguageTables.

(** X4. The two pipeline variants count the same things: on one token
    sequence the frequency tables of [process_language] for the orders 1 to
    5 are the count tables of [process_corpus] (a unigram, keyed by the word
    in [FreqDist], under its one-word tuple). *)
Theorem variants_same_counts `{Countable token} (tokens : list token) :
  ∃ t, NgramsTp.build_tables tokens = Ok t
    ∧ ∀ n, 1 ≤ n ≤ 5 →
        NgramsTp.ngram_freqs t !! n = Pipeline.count_grams tokens !! n.
Proof.
  destruct (build_tables_Ok tokens)
    as (bp & t & _ & Ht & _ & _ & _ & _ & _ & Hfreqs & _).
  exists t. split; [done |]. intros n Hn.
  rewrite Hfreqs, count_grams_lookup by done.
  unfold trigrams, bigrams. rewrite !ngrams_build_ngrams by lia.
  rewrite <- Counter_unigrams.
  assert (n = 1 ∨ n = 2 ∨ n = 3 ∨ n = 4 ∨ n = 5) as Hcases by lia.
  destruct Hcases as [->|[->|[->|[->| ->]]]];
    repeat first [ rewrite lookup_insert_eq
                 | rewrite lookup_insert_ne by done ]; done.
Qed.

Lemma variants_same_counts_witness :
  ∃ t, NgramsTp.build_tables ["a"; "b"; "a"] = Ok t
    ∧ NgramsTp.ngram_freqs t !! 2 = Pipeline.count_grams ["a"; "b"; "a"] !! 2.
Proof.
  destruct (variants_same_counts ["a"; "b"; "a"]) as (t & Ht & Hn).
  exists t. split; [done |]. apply Hn. lia.
Defined.


(** ** Unigram probabilities add up to one *)

(** The sum of the values of a probability table. *)
Definition sum_probs `{Countable K} (d : gmap K Q) : Q :=
  map_fold (λ _ p acc, (p + acc)%Q) 0%Q d.

Section UnigramMass.
Context `{Countable K}.

Lemma sum_probs_insert (d : gmap K Q) (k : K) (p : Q) :
  d !! k = None → (sum_probs (<[k := p]> d) == p + sum_probs d)%Q.
Proof.
  intros Hk. unfold sum_probs.
  apply (map_fold_insert Qeq (λ _ p acc, (p + acc)%Q)); [| | done].
  - intros j z x y Hxy. by rewrite Hxy.
  - intros. ring.
Qed.

Lemma int_quot_add (a b T : nat) :
  (int_quot (a + b) T == int_quot a T + int_quot b T)%Q.
Proof.
  unfold int_quot. rewrite Nat2Z.inj_add. symmetry. apply Qinv_plus_distr.
Qed.

Lemma sum_probs_quotients (m : gmap K nat) (T : nat) :
  (sum_probs ((λ c, int_quot c T) <$> m) == int_quot (sum_values m) T)%Q.
Proof.
  induction m as [|k v m Hk IH] using map_ind.
  - rewrite fmap_empty. unfold sum_probs, sum_values.
    rewrite !map_fold_empty. reflexivity.
  - rewrite fmap_insert, sum_probs_insert by (by rewrite lookup_fmap, Hk).
    rewrite sum_values_insert by done. by rewrite IH, int_quot_add.
Qed.

Lemma int_quot_self (T : nat) : T ≠ 0 → (int_quot T T == 1)%Q.
Proof.
  intros HT. unfold int_quot, Qeq. simpl. rewrite Zpos_of_nat by done. lia.
Qed.
End UnigramMass.

(** X6. For a non-empty token sequence the unigram probabilities of
    [process_language] (line 136) add up to exactly 1, and each of them is
    the count of the word divided by the number of tokens. *)
Theorem unigram_probs_sum_to_one `{Countable token} (tokens : list token) :
  tokens ≠ [] →
  (sum_probs (NgramsTp.unigram_probs (Counter tokens)) == 1)%Q
  ∧ ∀ w p, NgramsTp.unigram_probs (Counter tokens) !! w = Some p →
      Q2R p = (INR (occ w tokens) / INR (length tokens))%R.
Proof.
  intros Hne.
  assert (0 < length tokens) as Hlen by (destruct tokens; [done | simpl; lia]).
  split.
  - unfold NgramsTp.unigram_probs. rewrite sum_values_Counter.
    destruct (decide (0 < length tokens)); [| done].
    rewrite sum_probs_quotients, sum_values_Counter.
    apply int_quot_self. lia.
  - intros w p. rewrite unigram_probs_lookup, sum_values_Counter.
    destruct (Counter tokens !! w) as [c|] eqn:Hw; [| done].
    apply Counter_lookup_Some in Hw as [-> _]. simpl.
    destruct (decide _); [| done].
    intros [= <-]. apply Q2R_int_quot. lia.
Qed.

Lemma unigram_probs_sum_to_one_witness :
  (sum_probs (NgramsTp.unigram_probs (Counter ["a"; "b"; "a"])) == 1)%Q
  ∧ ∀ w p, NgramsTp.unigram_probs (Counter ["a"; "b"; "a"]) !! w = Some p →
      Q2R p = (INR (occ w ["a"; "b"; "a"]) / INR (length ["a"; "b"; "a"]))%R.
Proof. by apply (unigram_probs_sum_to_one ["a"; "b"; "a"]). Defined.

(** * Further properties of the text functions *)

(** A token as the tokenisers produce it: not empty, no whitespace. *)
Definition word_token (t : pystr) : Prop :=
  t ≠ [] ∧ Forall (λ c, is_space c = false) t.

Lemma rev_nonempty (t : pystr) : t ≠ [] → rev t ≠ [].
Proof.
  intros Ht Hr. apply Ht. apply (f_equal (@rev N)) in Hr.
  by rewrite rev_involutive in Hr.
Qed.

Lemma word_token_rev (acc : pystr) :
  acc ≠ [] → Forall (λ c, is_space c = false) acc → word_token (rev acc).
Proof.
  intros Hne Hacc. split; [by apply rev_nonempty |]. by apply Forall_rev.
Qed.

Lemma split_from_tokens (acc s : pystr) :
  Forall (λ c, is_space c = false) acc →
  Forall word_token (split_from acc s).
Proof.
  revert acc. induction s as [|c r IH]; intros acc Hacc; simpl.
  - destruct acc as [|a acc]; [constructor |].
    constructor; [by apply word_token_rev | constructor].
  - destruct (is_space c) eqn:Hc.
    + destruct acc as [|a acc]; [by apply IH |].
      constructor; [by apply word_token_rev | by apply IH].
    + apply IH. by constructor.
Qed.

Lemma split_tokens (s : pystr) : Forall word_token (split s).
Proof. by apply split_from_tokens. Qed.

Lemma split_from_word (acc t rest : pystr) :
  Forall (λ c, is_space c = false) t →
  split_from acc (t ++ rest) = split_from (rev t ++ acc) rest.
Proof.
  intros Ht. revert acc. induction Ht as [|c t Hc Ht IH]; intros acc; [done |].
  simpl. rewrite Hc, IH. by rewrite <- app_assoc.
Qed.

Lemma split_from_space (acc rest : pystr) :
  acc ≠ [] → split_from acc (space :: rest) = rev acc :: split_from [] rest.
Proof. intros Hacc. simpl. by destruct acc. Qed.

Lemma split_from_end (acc : pystr) : acc ≠ [] → split_from acc [] = [rev acc].
Proof. intros Hacc. simpl. by destruct acc. Qed.

(** Splitting the tokens joined by single spaces gives the tokens back. *)
Lemma split_join (g : list pystr) :
  Forall word_token g → split (py_join [space] g) = g.
Proof.
  unfold split. induction 1 as [|p rest [Hne Hp] Hrest IH]; [done |].
  simpl. destruct rest as [|q rest].
  - rewrite <- (app_nil_r p) at 1. rewrite split_from_word by done.
    rewrite app_nil_r, split_from_end by (by apply rev_nonempty).
    by rewrite rev_involutive.
  - rewrite split_from_word by done. rewrite app_nil_r. simpl app.
    rewrite split_from_space by (by apply rev_nonempty).
    by rewrite rev_involutive, IH.
Qed.

Lemma build_ngrams_Forall {token} (P : token → Prop)
    (tokens : list token) (n : nat) (g : list token) :
  Forall P tokens → g ∈ Pipeline.build_ngrams tokens n → Forall P g.
Proof.
  intros Ht. rewrite build_ngrams_seq.
  intros (i & -> & _)%list_elem_of_fmap.
  by apply Forall_take, Forall_drop.
Qed.

Lemma tokenize_tokens (lower : pystr → pystr) (text : pystr) :
  Forall word_token (Pipeline.tokenize lower text).
Proof. unfold Pipeline.tokenize. apply split_tokens. Qed.

(** X7. [tokenize] returns only tokens that are not empty and contain no
    whitespace character. *)
Theorem tokenize_word_tokens (lower : pystr → pystr) (text : pystr) :
  Forall (λ t, t ≠ [] ∧ Forall (λ c, is_space c = false) t)
         (Pipeline.tokenize lower text).
Proof. apply tokenize_tokens. Qed.

(** X8. Rendering a gram as a JSON key loses nothing on the grams the
    pipelines build: for a gram of tokens that are not empty and free of
    whitespace, splitting [ngram_to_string(gram)] on whitespace gives the
    gram back, so two such grams with the same key are the same gram; the
    grams that [build_ngrams] cuts from the tokens of [tokenize] are of that
    kind. *)
Theorem ngram_to_string_lossless :
  (∀ g : list pystr,
     Forall (λ t, t ≠ [] ∧ Forall (λ c, is_space c = false) t) g →
     split (NgramsTp.ngram_to_string g) = g)
  ∧ (∀ g1 g2 : list pystr,
     Forall (λ t, t ≠ [] ∧ Forall (λ c, is_space c = false) t) g1 →
     Forall (λ t, t ≠ [] ∧ Forall (λ c, is_space c = false) t) g2 →
     NgramsTp.ngram_to_string g1 = NgramsTp.ngram_to_string g2 → g1 = g2)
  ∧ (∀ (lower : pystr → pystr) (text : pystr) (n : nat) (g1 g2 : list pystr),
     g1 ∈ Pipeline.build_ngrams (Pipeline.tokenize lower text) n →
     g2 ∈ Pipeline.build_ngrams (Pipeline.tokenize lower text) n →
     NgramsTp.ngram_to_string g1 = NgramsTp.ngram_to_string g2 → g1 = g2).
Proof.
  assert (∀ g1 g2 : list pystr,
     Forall word_token g1 → Forall word_token g2 →
     NgramsTp.ngram_to_string g1 = NgramsTp.ngram_to_string g2 → g1 = g2)
    as Hinj.
  { intros g1 g2 H1 H2 Heq.
    rewrite <- (split_join g1 H1), <- (split_join g2 H2).
    unfold NgramsTp.ngram_to_string in Heq. by rewrite Heq. }
  split; [exact split_join |]. split; [exact Hinj |].
  intros lower text n g1 g2 H1 H2.
  pose proof (tokenize_tokens lower text) as Htok.
  apply Hinj.
  - exact (build_ngrams_Forall _ _ n g1 Htok H1).
  - exact (build_ngrams_Forall _ _ n g2 Htok H2).
Qed.

Lemma ngram_to_string_lossless_witness :
  split (NgramsTp.ngram_to_string [lit "ab"; lit "c"]) = [lit "ab"; lit "c"].
Proof.
  apply (proj1 ngram_to_string_lossless).
  vm_compute. repeat constructor; discriminate.
Defined.

(** ** [simple_tokenize] *)

Section SimpleTokenize.
Variable lower : pystr → pystr.
Variable is_word : char → bool.

Lemma findall_from_concat (run s : pystr) :
  Forall (λ c, is_space c = false) s →
  concat (NgramsTp.findall_from is_word run s) = rev run ++ s.
Proof.
  intros Hs. revert run.
  induction Hs as [|c r Hc Hr IH]; intros run; simpl.
  - destruct run; simpl; by rewrite ?app_nil_r.
  - destruct (is_word c).
    + rewrite IH. simpl. by rewrite <- app_assoc.
    + rewrite Hc. rewrite !concat_app, IH. simpl.
      by destruct run; simpl; rewrite ?app_nil_r.
Qed.

Lemma findall_from_tokens (run s : pystr) :
  Forall (λ c, is_space c = false) run →
  Forall (λ c, is_space c = false) s →
  Forall word_token (NgramsTp.findall_from is_word run s).
Proof.
  intros Hrun Hs. revert run Hrun.
  induction Hs as [|c r Hc Hr IH]; intros run Hrun; simpl.
  - destruct run as [|a run]; [constructor |].
    constructor; [by apply word_token_rev | constructor].
  - destruct (is_word c); [apply IH; by constructor |].
    rewrite Hc. apply Forall_app. split.
    + destruct run as [|a run]; [constructor |].
      constructor; [by apply word_token_rev | constructor].
    + constructor; [| by apply IH].
      split; [done | by constructor].
Qed.

(** A token is a run of word characters or one other character. *)
Lemma findall_from_shape (run s : pystr) :
  Forall (λ c, is_word c = true) run →
  Forall (λ t, Forall (λ c, is_word c = true) t
               ∨ ∃ c, t = [c] ∧ is_word c = false ∧ is_space c = false)
         (NgramsTp.findall_from is_word run s).
Proof.
  revert run. induction s as [|c r IH]; intros run Hrun; simpl.
  - destruct run as [|a run]; [constructor |].
    constructor; [left; by apply Forall_rev | constructor].
  - destruct (is_word c) eqn:Hw; [apply IH; by constructor |].
    apply Forall_app. split.
    + destruct run as [|a run]; [constructor |].
      constructor; [left; by apply Forall_rev | constructor].
    + destruct (is_space c) eqn:Hc; simpl; [by apply IH |].
      constructor; [right; by exists c | by apply IH].
Qed.

Lemma filter_all {A} (P : A → Prop) `{∀ x, Decision (P x)} (l : list A) :
  Forall P l → filter P l = l.
Proof.
  induction 1 as [|x l Hx Hl IH]; [done |].
  by rewrite filter_cons_True, IH.
Qed.

Lemma word_token_strip (t : pystr) : word_token t → strip t ≠ [].
Proof.
  intros [Hne Ht]. rewrite strip_fixed; [done | |].
  - intros c r ->. by inversion Ht.
  - intros init c ->. apply Forall_app in Ht as [_ Hc]. by inversion Hc.
Qed.

Lemma words_findall_tokens (words : list pystr) :
  Forall word_token words →
  Forall word_token (words ≫= NgramsTp.findall_from is_word []).
Proof.
  induction 1 as [|w words [_ Hw] Hwords IH]; [constructor |].
  rewrite bind_cons. apply Forall_app. split; [| done].
  by apply findall_from_tokens.
Qed.

Lemma words_findall_concat (words : list pystr) :
  Forall word_token words →
  concat (words ≫= NgramsTp.findall_from is_word []) = concat words.
Proof.
  induction 1 as [|w words [_ Hw] Hwords IH]; [done |].
  rewrite bind_cons, concat_app, IH. simpl. f_equal.
  by rewrite findall_from_concat.
Qed.

Lemma simple_tokenize_unfiltered (text : pystr) :
  NgramsTp.simple_tokenize lower is_word text
  = split (lower text) ≫= NgramsTp.findall_from is_word [].
Proof.
  unfold NgramsTp.simple_tokenize. apply filter_all.
  eapply Forall_impl; [apply words_findall_tokens, split_tokens |].
  apply word_token_strip.
Qed.
End SimpleTokenize.

(** X9. [simple_tokenize] loses no character but whitespace: its tokens,
    put end to end, are the whitespace-separated words of the lowercased
    text put end to end.  Every token is not empty and has no whitespace;
    it is a run of word characters or a single non-word character; the final
    filter on blank tokens never removes anything. *)
Theorem simple_tokenize_partition
    (lower : pystr → pystr) (is_word : char → bool) (text : pystr) :
  concat (NgramsTp.simple_tokenize lower is_word text)
  = concat (split (lower text))
  ∧ Forall (λ t, t ≠ [] ∧ Forall (λ c, is_space c = false) t)
           (NgramsTp.simple_tokenize lower is_word text)
  ∧ Forall (λ t, Forall (λ c, is_word c = true) t
                 ∨ ∃ c, t = [c] ∧ is_word c = false ∧ is_space c = false)
           (NgramsTp.simple_tokenize lower is_word text)
  ∧ NgramsTp.simple_tokenize lower is_word text
    = split (lower text) ≫= NgramsTp.findall_from is_word [].
Proof.
  rewrite simple_tokenize_unfiltered.
  split; [apply words_findall_concat, split_tokens |].
  split; [apply words_findall_tokens, split_tokens |].
  split; [| done].
  induction (split (lower text)) as [|w words IH]; [constructor |].
  rewrite bind_cons. apply Forall_app. split; [| done].
  apply findall_from_shape. constructor.
Qed.

(** ** [read_sentences_file] *)

(** A sentence as [read_sentences_file] returns it: not empty, and not
    ending in whitespace. *)
Definition sentence_ok (s : pystr) : Prop :=
  s ≠ [] ∧ ∀ init c, s = init ++ [c] → is_space c = false.

Lemma split_tab_from_second (before s x y : pystr) (more : list pystr) :
  NgramsTp.split_tab_from before s = x :: y :: more →
  ∃ pre, s = pre ++ 0x09%N :: y.
Proof.
  revert before. induction s as [|c r IH]; intros before; simpl; [done |].
  destruct (N.eqb_spec c 0x09) as [->|Hc].
  - intros [= _ <- _]. by exists [].
  - intros (pre & ->)%IH. by exists (c :: pre).
Qed.

Lemma sentence_of_line_ok (line : pystr) :
  Forall sentence_ok (NgramsTp.sentence_of_line line).
Proof.
  unfold NgramsTp.sentence_of_line.
  pose proof (strip_last line) as Hlast.
  destruct (strip line) as [|a l] eqn:Hl; [constructor |].
  destruct (NgramsTp.split_tab_from [] (a :: l)) as [|x [|y more]] eqn:Hs.
  - constructor; [| constructor]. split; [done | exact Hlast].
  - constructor; [| constructor]. split; [done | exact Hlast].
  - apply split_tab_from_second in Hs as (pre & Hpre).
    constructor; [| constructor]. split.
    + intros ->. by specialize (Hlast pre 0x09%N Hpre).
    + intros init c ->. apply (Hlast (pre ++ 0x09%N :: init) c).
      by rewrite Hpre, <- app_assoc.
Qed.

Lemma lstrip_all_space (s : pystr) :
  Forall (λ c, is_space c = true) s → lstrip s = [].
Proof. induction 1 as [|c s Hc Hs IH]; [done |]. simpl. by rewrite Hc. Qed.

Lemma sentence_of_blank_line (line : pystr) :
  Forall (λ c, is_space c = true) line → NgramsTp.sentence_of_line line = [].
Proof.
  intros Hl. unfold NgramsTp.sentence_of_line, strip.
  by rewrite lstrip_all_space.
Qed.

Lemma file_lines_from_blank (line s : pystr) :
  Forall (λ c, is_space c = true) line →
  Forall (λ c, is_space c = true) s →
  Forall (Forall (λ c, is_space c = true)) (NgramsTp.file_lines_from line s).
Proof.
  intros Hline Hs. revert line Hline.
  induction Hs as [|c r Hc Hr IH]; intros line Hline; simpl.
  - destruct line as [|a line]; [constructor |].
    constructor; [by apply Forall_rev | constructor].
  - destruct (c =? newline)%N.
    + constructor; [| by apply IH].
      apply Forall_rev with (l := c :: line). by constructor.
    + apply IH. by constructor.
Qed.

Lemma blank_file_no_sentences (text : pystr) :
  Forall (λ c, is_space c = true) text →
  NgramsTp.file_lines_from [] text ≫= NgramsTp.sentence_of_line = [].
Proof.
  intros Ht.
  pose proof (file_lines_from_blank [] text (List.Forall_nil _) Ht) as Hlines.
  induction Hlines as [|l ls Hl Hls IH]; [done |].
  by rewrite bind_cons, IH, sentence_of_blank_line.
Qed.

(** X10. [read_sentences_file] on a missing file prints the warning and
    returns no sentence; on a file that exists it prints nothing, and every
    sentence it returns is not empty and does not end in whitespace (blank
    lines give no sentence). *)
Theorem read_sentences_file_sentences
    (fs : gmap string pystr) (file_path : string) :
  (fs !! file_path = None →
   NgramsTp.read_sentences_file fs file_path
   = ([Stdout ("Warning: File not found: " +:+ file_path)], []))
  ∧ (∀ text, fs !! file_path = Some text →
       fst (NgramsTp.read_sentences_file fs file_path) = []
       ∧ Forall (λ s, s ≠ [] ∧ ∀ init c, s = init ++ [c] → is_space c = false)
                (snd (NgramsTp.read_sentences_file fs file_path))
       ∧ (Forall (λ c, is_space c = true) text →
          snd (NgramsTp.read_sentences_file fs file_path) = [])).
Proof.
  unfold NgramsTp.read_sentences_file. split; [by intros -> |].
  intros text ->. simpl. split; [done |]. split.
  - induction (NgramsTp.file_lines_from [] text) as [|l ls IH]; [constructor |].
    rewrite bind_cons. apply Forall_app. split; [| done].
    apply sentence_of_line_ok.
  - apply blank_file_no_sentences.
Qed.

Lemma read_sentences_file_sentences_witness :
  let fs : gmap string pystr := {[ "f" := lit "1	hello you" ]} in
  NgramsTp.read_sentences_file fs "g"
  = ([Stdout ("Warning: File not found: " +:+ "g")], [])
  ∧ fst (NgramsTp.read_sentences_file fs "f") = [].
Proof.
  intros fs.
  destruct (read_sentences_file_sentences fs "g") as [Hnone _].
  destruct (read_sentences_file_sentences fs "f") as [_ Hsome].
  split.
  - apply Hnone. vm_compute. reflexivity.
  - apply (Hsome (lit "1	hello you")). vm_compute. reflexivity.
Defined.

(** ** Sizes and words of a cleaned text *)

Lemma re_sub_from_length (m : matcher) (k : nat) (text : pystr) :
  length (re_sub_from m k text) ≤ length text.
Proof.
  revert k. induction text as [|c rest IH]; intros k; [done |]. simpl.
  destruct k as [|k]; [| specialize (IH k); lia].
  destruct (m (c :: rest)) as [[|j]|]; simpl;
    [specialize (IH 0) | specialize (IH j) | specialize (IH 0)]; lia.
Qed.

Lemma strip_length (s : pystr) : length (strip s) ≤ length s.
Proof.
  destruct (strip_infix s) as (pre & suf & Hs).
  rewrite Hs at 2. rewrite !length_app. lia.
Qed.

(** X11. Cleaning never makes a text longer. *)
Theorem clean_text_length (text : pystr) :
  length (Pipeline.clean_text text) ≤ length text.
Proof.
  unfold Pipeline.clean_text, re_sub_space.
  etransitivity; [apply strip_length |].
  repeat (etransitivity; [apply re_sub_from_length |]). done.
Qed.

Lemma py_join_cons2 (sep p q : pystr) (qs : list pystr) :
  py_join sep (p :: q :: qs) = p ++ sep ++ py_join sep (q :: qs).
Proof. reflexivity. Qed.

Lemma join_split_from (acc s : pystr) :
  Forall (λ c, is_space c = false) acc →
  Forall (λ c, is_space c = true → c = space) s →
  single_spaced s →
  (∀ init c, s = init ++ [c] → is_space c = false) →
  (acc = [] → ∀ c r, s = c :: r → is_space c = false) →
  py_join [space] (split_from acc s) = rev acc ++ s.
Proof.
  intros Hacc Honly. revert acc Hacc.
  induction Honly as [|c r Hc Hr IH]; intros acc Hacc Hss Hlast Hhead.
  - simpl. destruct acc; simpl; by rewrite ?app_nil_r.
  - assert (∀ init c', r = init ++ [c'] → is_space c' = false) as Hlast'.
    { intros init c' ->. by apply (Hlast (c :: init) c'). }
    pose proof (single_spaced_tail _ _ Hss) as Hss'.
    simpl split_from. destruct (is_space c) eqn:Hsp.
    + rewrite (Hc eq_refl) in *.
      destruct acc as [|a acc].
      { by rewrite (Hhead eq_refl space r eq_refl) in Hsp. }
      destruct r as [|d r'].
      { by rewrite (Hlast [] space eq_refl) in Hsp. }
      assert (is_space d = false) as Hd.
      { destruct Hss as [Hcd _]. destruct (is_space d); [| done].
        by destruct Hcd. }
      assert (py_join [space] (split_from [] (d :: r')) = d :: r') as IH'.
      { apply (IH [] (List.Forall_nil _) Hss' Hlast').
        by intros _ c' r'' [= <- _]. }
      destruct (split_from [] (d :: r')) as [|q qs] eqn:Hq; [done |].
      by rewrite py_join_cons2, IH'.
    + rewrite IH; try done.
      * simpl. by rewrite <- app_assoc.
      * by constructor.
Qed.

(** X12. The words of a cleaned text are separated by exactly one space:
    joining [clean_text(text).split()] with single spaces gives
    [clean_text(text)] back. *)
Theorem clean_text_split_join (text : pystr) :
  py_join [space] (split (Pipeline.clean_text text)) = Pipeline.clean_text text.
Proof.
  destruct (clean_text_normalized text) as (_ & Honly & Hss & Hhead & Hlast).
  unfold split. rewrite join_split_from; try done.
Qed.

(** * Further properties of the runs *)

(** The paths of the artifacts written, in order, and the directories
    created. *)
Definition dumped_paths (events : list event) : list string :=
  events ≫= λ e, match e with JsonDump path _ => [path] | _ => [] end.

Definition made_dirs (events : list event) : list string :=
  events ≫= λ e, match e with MakeDirs path => [path] | _ => [] end.

Section RunFacts.
Variable lower : pystr → pystr.
Variable is_word : char → bool.
Implicit Types (fs : gmap string pystr) (lang file_path : string).

Lemma dumped_paths_app (a b : list event) :
  dumped_paths (a ++ b) = dumped_paths a ++ dumped_paths b.
Proof. apply bind_app. Qed.

Lemma made_dirs_app (a b : list event) :
  made_dirs (a ++ b) = made_dirs a ++ made_dirs b.
Proof. apply bind_app. Qed.

Lemma process_language_blank fs lang file_path text :
  fs !! file_path = Some text →
  Forall (λ c, is_space c = true) text →
  NgramsTp.process_language lower is_word fs lang file_path
  = ([Stdout (nl +:+ "Processing " +:+ lang +:+ "...");
      Stdout ("No sentences found for " +:+ lang)], Ok ()).
Proof.
  intros Hf Ht. unfold NgramsTp.process_language, NgramsTp.read_sentences_file.
  rewrite Hf. by rewrite blank_file_no_sentences.
Qed.

Lemma process_language_artifacts fs lang file_path :
  snd (NgramsTp.read_sentences_file fs file_path) ≠ [] →
  dumped_paths (fst (NgramsTp.process_language lower is_word fs lang file_path))
  = ((λ n, "ngrams_tp/" +:+ lang +:+ "/" +:+ pretty n +:+ "gram.json")
       <$> seq 1 5)
    ++ ((λ n, "ngrams_tp/" +:+ lang +:+ "/prob_" +:+ pretty n +:+ "gram.json")
          <$> seq 2 4)
    ++ ["ngrams_tp/" +:+ lang +:+ "/vocab.json";
        "ngrams_tp/" +:+ lang +:+ "/vocab_rev.json";
        "ngrams_tp/" +:+ lang +:+ "/freq.json"]
  ∧ made_dirs (fst (NgramsTp.process_language lower is_word fs lang file_path))
    = ["ngrams_tp/" +:+ lang].
Proof.
  unfold NgramsTp.process_language, NgramsTp.read_sentences_file.
  destruct (fs !! file_path) as [text|]; [| done]. simpl snd.
  destruct (NgramsTp.file_lines_from [] text ≫= NgramsTp.sentence_of_line)
    as [|s sentences]; [done |]. intros _.
  destruct (build_tables_Ok
              (NgramsTp.process_text_to_tokens lower is_word (s :: sentences)))
    as (bp & t & _ & -> & _).
  split; reflexivity.
Qed.
End RunFacts.

(** X13. [process_language] on a file that exists but holds only
    whitespace prints that no sentences were found and returns: it creates
    no directory and writes no artifact. *)
Theorem blank_file_writes_nothing
    (lower : pystr → pystr) (is_word : char → bool)
    (fs : gmap string pystr) (lang file_path : string) (text : pystr) :
  fs !! file_path = Some text →
  Forall (λ c, is_space c = true) text →
  NgramsTp.process_language lower is_word fs lang file_path
  = ([Stdout (nl +:+ "Processing " +:+ lang +:+ "...");
      Stdout ("No sentences found for " +:+ lang)], Ok ())
  ∧ dumped_paths
      (fst (NgramsTp.process_language lower is_word fs lang file_path)) = []
  ∧ made_dirs
      (fst (NgramsTp.process_language lower is_word fs lang file_path)) = [].
Proof.
  intros Hf Ht.
  rewrite (process_language_blank lower is_word fs lang file_path text Hf Ht).
  done.
Qed.

Lemma blank_file_writes_nothing_witness :
  let fs : gmap string pystr := {[ "f" := lit "
  	
" ]} in
  dumped_paths
    (fst (NgramsTp.process_language (λ s, s) (λ _, false) fs "x" "f")) = [].
Proof.
  intros fs.
  apply (blank_file_writes_nothing (λ s, s) (λ _, false) fs "x" "f" (lit "
  	
")).
  - vm_compute. reflexivity.
  - vm_compute. repeat constructor.
Defined.

(** X14. [process_language] on a file with at least one sentence creates
    the directory [ngrams_tp/<lang>] and writes, in this order, the five
    count tables [1gram.json] to [5gram.json], the four probability tables
    [prob_2gram.json] to [prob_5gram.json] (the unigram probabilities are
    computed but not written), [vocab.json], [vocab_rev.json] and
    [freq.json]; it ends without an exception. *)
Theorem process_language_writes
    (lower : pystr → pystr) (is_word : char → bool)
    (fs : gmap string pystr) (lang file_path : string) :
  snd (NgramsTp.read_sentences_file fs file_path) ≠ [] →
  snd (NgramsTp.process_language lower is_word fs lang file_path) = Ok ()
  ∧ made_dirs (fst (NgramsTp.process_language lower is_word fs lang file_path))
    = ["ngrams_tp/" +:+ lang]
  ∧ dumped_paths (fst (NgramsTp.process_language lower is_word fs lang file_path))
    = ["ngrams_tp/" +:+ lang +:+ "/1gram.json";
       "ngrams_tp/" +:+ lang +:+ "/2gram.json";
       "ngrams_tp/" +:+ lang +:+ "/3gram.json";
       "ngrams_tp/" +:+ lang +:+ "/4gram.json";
       "ngrams_tp/" +:+ lang +:+ "/5gram.json";
       "ngrams_tp/" +:+ lang +:+ "/prob_2gram.json";
       "ngrams_tp/" +:+ lang +:+ "/prob_3gram.json";
       "ngrams_tp/" +:+ lang +:+ "/prob_4gram.json";
       "ngrams_tp/" +:+ lang +:+ "/prob_5gram.json";
       "ngrams_tp/" +:+ lang +:+ "/vocab.json";
       "ngrams_tp/" +:+ lang +:+ "/vocab_rev.json";
       "ngrams_tp/" +:+ lang +:+ "/freq.json"].
Proof.
  intros Hs. split; [apply process_language_Ok |].
  destruct (process_language_artifacts lower is_word fs lang file_path Hs)
    as [Hd Hm].
  split; [done |]. rewrite Hd. reflexivity.
Qed.

Lemma process_language_writes_witness :
  let fs : gmap string pystr := {[ "f" := lit "1	a b" ]} in
  made_dirs (fst (NgramsTp.process_language (λ s, s) (λ _, true) fs "x" "f"))
  = ["ngrams_tp/" +:+ "x"].
Proof.
  intros fs.
  apply (process_language_writes (λ s, s) (λ _, true) fs "x" "f").
  vm_compute. discriminate.
Defined.


